(** * LEGO brick workflow interpreter: the detector and the assembler

    A shallow embedding of [detect_bricks_from_image],
    [bricks_to_workflow] and [analyze_image] of [main.py], and the
    properties of the workflow graphs they produce. *)

From Stdlib Require Import QArith Ascii.
From stdpp Require Import gmap strings list pretty sorting.

Local Open Scope string_scope.

(** ** Floats

    A Python [float] is a finite value, one of the two infinities or [nan].
    Every finite float is a rational, and so is every integer that is used
    where a float is expected; [0.0] and [-0.0] are one value for [<] and
    [==], the only operations on them that are followed here. The quotient
    of two floats is rounded by the machine and is not computed here: see
    [float_div] below. *)
Inductive float :=
  | Finite (q : Q)
  | PlusInf
  | MinusInf
  | NaN.

Definition Qltb (p q : Q) : bool := negb (Qle_bool q p).

(** [a < b]: false as soon as one side is [nan]. *)
Definition flt (a b : float) : bool :=
  match a with
  | NaN => false
  | MinusInf => match b with Finite _ | PlusInf => true | _ => false end
  | Finite p =>
      match b with Finite q => Qltb p q | PlusInf => true | _ => false end
  | PlusInf => false
  end.

(** [a == b]: false as soon as one side is [nan]. *)
Definition feq (a b : float) : bool :=
  match a, b with
  | Finite p, Finite q => Qeq_bool p q
  | PlusInf, PlusInf => true
  | MinusInf, MinusInf => true
  | _, _ => false
  end.

(** [a <= b] *)
Definition fle (a b : float) : bool := flt a b || feq a b.

(** ** Data models *)

Record Brick := mkBrick {
  brick_id : string;
  brick_color : string;
  brick_x : float;
  brick_y : float
}.

Record Node := mkNode {
  node_id : string;
  node_type : string
}.

Record WorkflowGraph := mkWorkflowGraph {
  nodes : list Node;
  edges : list (string * string)
}.

(** ** Constants *)

Definition COLOR_TO_TYPE : gmap string string :=
  <["green" := "Start"]> (<["blue" := "Action"]>
    (<["yellow" := "Decision"]> (<["red" := "End"]> ∅))).

(** ** Exceptions *)

Inductive exn :=
  | ValueError (msg : string)
  | KeyError (key : string)
  | IndexError (i : nat)
  | TypeError
  | ZeroDivisionError
  | LibraryError (text : string).

#[global] Instance exn_ret : MRet (sum exn) := λ _ a, inr a.
#[global] Instance exn_bind : MBind (sum exn) := λ _ _ f m,
  match m with inl e => inl e | inr a => f a end.

Definition raise {A} (e : exn) : exn + A := inl e.

(** [d[k]] on a dict. *)
Definition getitem (d : gmap string string) (k : string) : exn + string :=
  match d !! k with
  | Some v => mret v
  | None => raise (KeyError k)
  end.

(** [l[i]] on a list, for an index that is not negative. *)
Definition list_getitem {A} (l : list A) (i : nat) : exn + A :=
  match l !! i with
  | Some a => mret a
  | None => raise (IndexError i)
  end.

(** ** [sorted(l, key=...)]

    The keys are compared with [<] and nothing else. CPython (3.11, in
    [listobject.c]) sorts a list of fewer than 64 elements in two steps.
    [count_run] finds the run the list starts with: ascending, each element
    not less than the one before it, or descending, each element less than
    the one before it; a descending run is reversed. [binarysort] then
    puts the elements after the run into it one by one, each at the place a
    binary search gives. [listsort] does this for a list of any length.

    CPython cuts a list of 64 elements or more into several such runs and
    merges them. When no key is [nan] the result is the same list, for
    there is one list only that is in order and keeps the elements that
    compare equal as the input has them (lemma [sorted_unique]). With
    [nan] among the keys of a list that long, the order CPython gives is
    not followed here. *)
Section listsort.
Context {A : Type} (lt : A → A → bool).

(** The number of elements of [l] that go on an ascending run whose last
    element is [prev]. *)
Fixpoint ascending (prev : A) (l : list A) : nat :=
  match l with
  | [] => 0
  | a :: t => if lt a prev then 0 else S (ascending a t)
  end.

(** The same for a descending run. *)
Fixpoint descending (prev : A) (l : list A) : nat :=
  match l with
  | [] => 0
  | a :: t => if lt a prev then S (descending a t) else 0
  end.

(** The length of the first run, and whether it descends. *)
Definition count_run (l : list A) : nat * bool :=
  match l with
  | a :: b :: t =>
      if lt b a then (2 + descending b t, true)%nat
      else (2 + ascending b t, false)%nat
  | _ => (length l, false)
  end.

(** The binary search of [binarysort] between [l] and [r]: the interval
    is halved as long as it is not empty, which takes at most [fuel] steps
    when [fuel] is its length. *)
Fixpoint bisect (fuel : nat) (pivot : A) (run : list A) (l r : nat) : nat :=
  match fuel with
  | 0 => l
  | S fuel =>
    if decide (l < r)%nat then
      let p := (l + (r - l) / 2)%nat in
      match run !! p with
      | Some a =>
          if lt pivot a then bisect fuel pivot run l p
          else bisect fuel pivot run (p + 1) r
      | None => l
      end
    else l
  end.

Definition binary_insert (run : list A) (pivot : A) : list A :=
  let l := bisect (length run) pivot run 0 (length run) in
  (take l run ++ pivot :: drop l run)%list.

Definition binarysort (run rest : list A) : list A :=
  foldl binary_insert run rest.

Definition listsort (l : list A) : list A :=
  let '(n, is_descending) := count_run l in
  let run := take n l in
  binarysort (if is_descending then reverse run else run) (drop n l).
End listsort.

(** The comparison of two elements: [key(a) < key(b)]. *)
Definition key_lt {A} (key : A → float) (a b : A) : bool :=
  flt (key a) (key b).

Definition sorted {A} (key : A → float) (l : list A) : list A :=
  listsort (key_lt key) l.

(** ** Workflow logic *)

Definition no_bricks_message : string := "No interpretable bricks found".
Definition missing_start_message : string :=
  "Workflow must have exactly one Start node (green brick)".
Definition duplicate_start_message (n : nat) : string :=
  "Workflow has " +:+ pretty n +:+ " Start nodes, but must have exactly one".
Definition missing_end_message : string :=
  "Workflow must have exactly one End node (red brick)".
Definition duplicate_end_message (n : nat) : string :=
  "Workflow has " +:+ pretty n +:+ " End nodes, but must have exactly one".

(** The five validation failures, named as the specification names them. *)
Definition NoInterpretableObjects : exn := ValueError no_bricks_message.
Definition MissingStart : exn := ValueError missing_start_message.
Definition DuplicateStart (n : nat) : exn := ValueError (duplicate_start_message n).
Definition MissingEnd : exn := ValueError missing_end_message.
Definition DuplicateEnd (n : nat) : exn := ValueError (duplicate_end_message n).

(** [b.color in COLOR_TO_TYPE] *)
Definition valid_color (b : Brick) : Prop :=
  is_Some (COLOR_TO_TYPE !! brick_color b).

#[global] Instance valid_color_dec b : Decision (valid_color b).
Proof. unfold valid_color. apply _. Defined.

(** [Node(id=brick.id, type=COLOR_TO_TYPE[brick.color])] *)
Definition make_node (brick : Brick) : exn + Node :=
  t ← getitem COLOR_TO_TYPE (brick_color brick);
  mret (mkNode (brick_id brick) t).

(** [(sorted_bricks[i].id, sorted_bricks[i + 1].id)] *)
Definition make_edge (sorted_bricks : list Brick) (i : nat) :
    exn + (string * string) :=
  a ← list_getitem sorted_bricks i;
  b ← list_getitem sorted_bricks (i + 1);
  mret (brick_id a, brick_id b).

(** Lines 144 to 175. The checks are made one after the other and the first
    that fails raises. The edge loop runs over [range(len(sorted_bricks) - 1)],
    which is empty when the difference is not positive. *)
Definition bricks_to_workflow (bricks : list Brick) : exn + WorkflowGraph :=
  let valid_bricks := filter valid_color bricks in
  match valid_bricks with
  | [] => raise NoInterpretableObjects
  | _ =>
    let sorted_bricks := sorted brick_x valid_bricks in
    nodes ← mapM make_node sorted_bricks;
    let start_nodes := filter (λ n, node_type n = "Start") nodes in
    let end_nodes := filter (λ n, node_type n = "End") nodes in
    if decide (length start_nodes = 0) then raise MissingStart
    else if decide (1 < length start_nodes) then
      raise (DuplicateStart (length start_nodes))
    else if decide (length end_nodes = 0) then raise MissingEnd
    else if decide (1 < length end_nodes) then
      raise (DuplicateEnd (length end_nodes))
    else
      edges ← mapM (make_edge sorted_bricks) (seq 0 (length sorted_bricks - 1));
      mret (mkWorkflowGraph nodes edges)
  end.

Definition example_bricks : list Brick :=
  [ mkBrick "b1" "green" (Finite 100) (Finite 200);
    mkBrick "b2" "blue" (Finite 250) (Finite 200);
    mkBrick "b3" "yellow" (Finite 400) (Finite 200);
    mkBrick "b4" "blue" (Finite 550) (Finite 200);
    mkBrick "b5" "red" (Finite 700) (Finite 200) ].

(** ** Brick detection *)

(** A pixel of the HSV image: hue, saturation and value, each a [uint8]. *)
Definition HSV : Type := Z * Z * Z.

(** A single-channel [uint8] image: 255 where the pixel is selected, 0
    elsewhere. *)
Abbreviation Mask := (list (list Z)).

(** An entry of [HSV_RANGES]: one pair of bounds, or a list of pairs. *)
Inductive hsv_range :=
  | Bounds (lower upper : HSV)
  | BoundsList (l : list (HSV * HSV)).

(** The table is iterated with [.items()], in the order its keys are
    written. *)
Definition HSV_RANGES : list (string * hsv_range) :=
  [ ("green", Bounds (35, 50, 50)%Z (85, 255, 255)%Z);
    ("blue", Bounds (90, 50, 50)%Z (130, 255, 255)%Z);
    ("yellow", Bounds (20, 100, 100)%Z (35, 255, 255)%Z);
    ("red", BoundsList [ ((0, 50, 50)%Z, (10, 255, 255)%Z);
                         ((170, 50, 50)%Z, (180, 255, 255)%Z) ]) ].

(** [cv2.inRange]: a pixel is selected when each channel lies between the
    bounds, both included. *)
Definition in_bounds (px lower upper : HSV) : bool :=
  let '(h, s, v) := px in
  let '(lh, ls, lv) := lower in
  let '(uh, us, uv) := upper in
  (lh <=? h)%Z && (h <=? uh)%Z && (ls <=? s)%Z && (s <=? us)%Z
    && (lv <=? v)%Z && (v <=? uv)%Z.

Definition inRange (img : list (list HSV)) (lower upper : HSV) : Mask :=
  map (map (λ px, if in_bounds px lower upper then 255%Z else 0%Z)) img.

(** [cv2.bitwise_or] of two masks of the same shape. *)
Definition bitwise_or (m1 m2 : Mask) : Mask :=
  zip_with (zip_with Z.lor) m1 m2.

(** The mask of one colour class, before it is cleaned: lines 89 to 94.
    The red entry is indexed as a list of pairs of bounds, of which the
    first two are used, and the others as one pair. Every entry of the
    table has the shape its colour is indexed with; what OpenCV does with an
    entry of the other shape is not followed further than a failure. *)
Definition color_mask (img_hsv : list (list HSV)) (color_name : string)
    (range : hsv_range) : exn + Mask :=
  if decide (color_name = "red") then
    match range with
    | BoundsList ((l0, u0) :: (l1, u1) :: _) =>
        let mask1 := inRange img_hsv l0 u0 in
        let mask2 := inRange img_hsv l1 u1 in
        mret (bitwise_or mask1 mask2)
    | BoundsList [_] => raise (IndexError 1)
    | BoundsList [] => raise (IndexError 0)
    | Bounds _ _ => raise TypeError
    end
  else
    match range with
    | Bounds lower upper => mret (inRange img_hsv lower upper)
    | BoundsList _ => raise TypeError
    end.

(** [np.array(img)]: two axes for a greyscale image, three otherwise, the
    third being the channels. *)
Inductive ndarray :=
  | Array2 (a : list (list Z))
  | Array3 (channels : nat) (a : list (list (list Z))).

Inductive morph_op := MORPH_CLOSE | MORPH_OPEN.

Record Moments := mkMoments { m00 : float; m10 : float; m01 : float }.

(** A [for] loop whose body updates the local variables [S]. *)
Fixpoint for_each {A S} (body : S → A → exn + S) (l : list A) (st : S) : exn + S :=
  match l with
  | [] => mret st
  | a :: l' => st' ← body st a; for_each body l' st'
  end.

(** The local variables the two loops of the detector update. *)
Record locals := mkLocals { bricks : list Brick; brick_counter : nat }.

(** The image library and OpenCV are used as given: what the detector
    calls, without the arguments that are the same at every call. The
    calls that read the image, change its colour space, clean a mask and
    find its contours return or raise, as the library decides: [np.array]
    loads the pixels and raises on a file that is cut short, [cv2.cvtColor]
    raises on an array whose number of channels is not the one the
    conversion asks for. [float_div] is the quotient of two floats as the
    machine rounds it, for a divisor that is not zero. *)
Class Cv2 := {
  Image : Type;
  BGR : Type;
  Contour : Type;
  np_array : Image → exn + ndarray;
  cvtColor_GRAY2BGR : list (list Z) → exn + BGR;
  cvtColor_RGBA2BGR : list (list (list Z)) → exn + BGR;
  cvtColor_RGB2BGR : list (list (list Z)) → exn + BGR;
  cvtColor_BGR2HSV : BGR → exn + list (list HSV);
  morphologyEx : Mask → morph_op → list (list Z) → exn + Mask;
  findContours : Mask → exn + list Contour;
  contourArea : Contour → float;
  moments : Contour → Moments;
  float_div : float → float → float
}.

Section Detector.
Context `{Cv2}.

(** [p / q] on floats. *)
Definition truediv (p q : float) : exn + float :=
  if feq q (Finite 0) then raise ZeroDivisionError else mret (float_div p q).

(** Lines 73 to 82. *)
Definition to_hsv (img : Image) : exn + list (list HSV) :=
  img_array ← np_array img;
  img_bgr ←
    match img_array with
    | Array2 a => cvtColor_GRAY2BGR a
    | Array3 c a => if decide (c = 4%nat) then cvtColor_RGBA2BGR a
                    else cvtColor_RGB2BGR a
    end;
  cvtColor_BGR2HSV img_bgr.

(** The body of the loop over the contours of one colour. *)
Definition contour_step (color_name : string) (st : locals)
    (contour : Contour) : exn + locals :=
  let area := contourArea contour in
  if flt area (Finite 100) then mret st
  else
    let M := moments contour in
    if feq (m00 M) (Finite 0) then mret st
    else
      cx ← truediv (m10 M) (m00 M);
      cy ← truediv (m01 M) (m00 M);
      let brick := mkBrick ("b" +:+ pretty (brick_counter st)) color_name cx cy in
      mret (mkLocals (bricks st ++ [brick]) (brick_counter st + 1)).

(** The contours of one colour class: lines 89 to 102. *)
Definition color_contours (img_hsv : list (list HSV))
    (entry : string * hsv_range) : exn + list Contour :=
  mask ← color_mask img_hsv entry.1 entry.2;
  let kernel := replicate 5 (replicate 5 1%Z) in
  mask ← morphologyEx mask MORPH_CLOSE kernel;
  mask ← morphologyEx mask MORPH_OPEN kernel;
  findContours mask.

Definition color_step (img_hsv : list (list HSV)) (st : locals)
    (entry : string * hsv_range) : exn + locals :=
  contours ← color_contours img_hsv entry;
  for_each (contour_step entry.1) contours st.

Definition detect_bricks_from_image (img : Image) : exn + list Brick :=
  img_hsv ← to_hsv img;
  st ← for_each (color_step img_hsv) HSV_RANGES (mkLocals [] 1);
  mret (bricks st).

(** Detection followed by assembly. *)
Definition analyze (img : Image) : exn + WorkflowGraph :=
  bricks ← detect_bricks_from_image img;
  bricks_to_workflow bricks.

End Detector.

(** * The upload endpoint *)

(** What [analyze_image] reads of an uploaded file: the content type the
    client declared, if any, and the bytes. *)
Record UploadFile := mkUploadFile {
  content_type : option string;
  contents : list Byte.byte
}.

Record HTTPException := mkHTTPException {
  status_code : nat;
  detail : string
}.

Definition not_an_image_detail : string := "File must be an image".
Definition no_bricks_detail : string :=
  "No bricks detected in image. Please ensure the image has clearly visible colored LEGO bricks.".
Definition processing_detail (text : string) : string :=
  "Error processing image: " +:+ text.

(** [not s] on an optional string: true for [None] and for the empty
    string. *)
Definition falsy (s : option string) : bool :=
  match s with
  | None => true
  | Some s => if decide (s = "") then true else false
  end.

(** [s.startswith(p)], taken as false when there is no string. *)
Definition startswith (s : option string) (p : string) : bool :=
  match s with
  | None => false
  | Some s => String.prefix p s
  end.

Section Endpoint.
Context `{Cv2}.

(** [Image.open(io.BytesIO(contents))]: the image, or the text of the
    exception that is raised. *)
Variable Image_open : list Byte.byte → string + Image.

(** [str(e)] for the exceptions whose text is the runtime's. *)
Variable str_raised : exn → string.

Definition str (e : exn) : string :=
  match e with
  | ValueError msg => msg
  | _ => str_raised e
  end.

(** Lines 294 to 336. An [HTTPException] raised inside the [try] is raised
    again as it is; any other exception becomes a 500. *)
Definition analyze_image (file : UploadFile) : HTTPException + WorkflowGraph :=
  if falsy (content_type file) || negb (startswith (content_type file) "image/")
  then inl (mkHTTPException 400 not_an_image_detail)
  else
    match Image_open (contents file) with
    | inl text => inl (mkHTTPException 500 (processing_detail text))
    | inr image =>
      match detect_bricks_from_image image with
      | inl e => inl (mkHTTPException 500 (processing_detail (str e)))
      | inr bricks =>
        match bricks with
        | [] => inl (mkHTTPException 400 no_bricks_detail)
        | _ =>
          match bricks_to_workflow bricks with
          | inl (ValueError msg) => inl (mkHTTPException 400 (str (ValueError msg)))
          | inl e => inl (mkHTTPException 500 (processing_detail (str e)))
          | inr workflow => inr workflow
          end
        end
      end
    end.
End Endpoint.

(** * Notions the properties are stated with *)

(** ** Order *)

(** [a] does not come after [b]: [b] is not less than [a]. *)
Definition not_after {A} (lt : A → A → bool) (a b : A) : Prop := lt b a = false.

(** [a] comes after [b]. *)
Definition after {A} (lt : A → A → bool) (a b : A) : Prop := lt b a = true.

(** The run [listsort] starts from, in ascending order. *)
Definition first_run {A} (lt : A → A → bool) (l : list A) : list A :=
  let '(n, is_descending) := count_run lt l in
  if is_descending then reverse (take n l) else take n l.

(** Two floats that are the same value. *)
Definition same_float (a b : float) : Prop :=
  match a, b with
  | Finite p, Finite q => (p == q)%Q
  | PlusInf, PlusInf => True
  | MinusInf, MinusInf => True
  | NaN, NaN => True
  | _, _ => False
  end.

(** ** Bricks, nodes and graphs *)

(** A brick whose [x] is not [nan]. *)
Definition x_not_nan (b : Brick) : Prop := brick_x b ≠ NaN.

(** The node of a brick of a recognised colour. *)
Definition node_of (b : Brick) : Node :=
  mkNode (brick_id b) (default "" (COLOR_TO_TYPE !! brick_color b)).

(** The number of bricks of colour [c] in a list. *)
Definition count_color (c : string) (l : list Brick) : nat :=
  length (filter (λ b, brick_color b = c) l).

(** The number of nodes of kind [t] in a node list. *)
Definition count_type (t : string) (ns : list Node) : nat :=
  length (filter (λ n, node_type n = t) ns).

(** The pair of identifiers the [i]th iteration of the edge loop appends. *)
Definition edge_at (l : list Brick) (i : nat) : string * string :=
  (default "" (brick_id <$> l !! i), default "" (brick_id <$> l !! (i + 1))).

(** The bricks the nodes are made from: those of a recognised colour, as
    [sorted] leaves them. *)
Definition sorted_bricks_of (bricks : list Brick) : list Brick :=
  sorted brick_x (filter valid_color bricks).

(** The graph that is returned when no check fails. *)
Definition graph_of (bricks : list Brick) : WorkflowGraph :=
  let sorted_bricks := sorted brick_x (filter valid_color bricks) in
  mkWorkflowGraph (node_of <$> sorted_bricks)
    (edge_at sorted_bricks <$> seq 0 (length sorted_bricks - 1)).

(** The edges of a graph as a relation between identifiers. *)
Definition edge (g : WorkflowGraph) (a b : string) : Prop := (a, b) ∈ edges g.

#[global] Instance Node_eq_dec : EqDecision Node.
Proof. solve_decision. Defined.

(** ** Messages *)

(** A string without a space, as the decimal digits of a number are. *)
Fixpoint no_space (s : string) : Prop :=
  match s with
  | EmptyString => True
  | String c s' => c ≠ " "%char ∧ no_space s'
  end.

(** Whether the message of a raised [ValueError] contains [word]. *)
Definition mentions (word : string) (r : exn + WorkflowGraph) : bool :=
  match r with
  | inl (ValueError msg) =>
      match String.index 0 word msg with Some _ => true | None => false end
  | _ => false
  end.

(** ** Images *)

(** The entry at row [r] and column [c] of an image or a mask. *)
Definition pixel {A} (a : list (list A)) (r c : nat) : option A :=
  a !! r ≫= (.!! c).

(** Whether a pixel lies within the bounds of a table entry: within the
    pair, or within one of the pairs of the list (the red entry has two,
    the two the mask is made of). *)
Definition in_range (range : hsv_range) (px : HSV) : bool :=
  match range with
  | Bounds lower upper => in_bounds px lower upper
  | BoundsList l => existsb (λ b, in_bounds px b.1 b.2) l
  end.

(** ** Contours *)

Section DetectorNotions.
Context `{Cv2}.

(** A contour that passes the two tests of the loop body: its area is
    not under 100 and its zeroth moment is not zero. *)
Definition accepted (c : Contour) : Prop :=
  flt (contourArea c) (Finite 100) = false
  ∧ feq (m00 (moments c)) (Finite 0) = false.

#[global] Instance accepted_decision (c : Contour) : Decision (accepted c).
Proof. unfold accepted. apply _. Defined.

(** The brick made from contour [c] when the counter is at [k]. *)
Definition brick_of (color_name : string) (k : nat) (c : Contour) : Brick :=
  mkBrick ("b" +:+ pretty k) color_name
    (float_div (m10 (moments c)) (m00 (moments c)))
    (float_div (m01 (moments c)) (m00 (moments c))).

(** A brick that was made from an accepted contour of the cleaned mask of
    its colour. *)
Definition from_accepted (img_hsv : list (list HSV)) (b : Brick) : Prop :=
  ∃ entry contours c k,
    entry ∈ HSV_RANGES ∧ color_contours img_hsv entry = inr contours
    ∧ c ∈ contours ∧ accepted c ∧ b = brick_of entry.1 k c.

(** What the local variables satisfy all along the two loops. *)
Definition detector_invariant (img_hsv : list (list HSV)) (st : locals) : Prop :=
  Forall (from_accepted img_hsv) (bricks st)
  ∧ ∃ m, brick_counter st = S m
      ∧ brick_id <$> bricks st = (λ k, "b" +:+ pretty k) <$> seq 1 m.

(** The accepted contours of one colour class, each with the name of the
    colour. *)
Definition accepted_of (img_hsv : list (list HSV))
    (entry : string * hsv_range) : list (string * Contour) :=
  match color_contours img_hsv entry with
  | inr contours => (λ c, (entry.1, c)) <$> filter accepted contours
  | inl _ => []
  end.

(** The accepted contours of an image: colour after colour in the order of
    the table, and within a colour in the order [findContours] gives. *)
Definition accepted_contours (img_hsv : list (list HSV)) :
    list (string * Contour) :=
  entry ← HSV_RANGES; accepted_of img_hsv entry.

(** The bricks of a list of contours, the first being named from [k]. *)
Definition numbered (k : nat) (l : list (string * Contour)) : list Brick :=
  imap (λ i p, brick_of p.1 (k + i) p.2) l.
End DetectorNotions.

(** ** Uploads *)

(** A file declared as an image: a content type that starts with
    [image/]. *)
Definition declared_image (file : UploadFile) : Prop :=
  ∃ ct, content_type file = Some ct ∧ String.prefix "image/" ct = true.

(** ** Bricks that differ in what is not read *)

(** Two bricks that differ at most in [y]. *)
Definition same_but_y (a b : Brick) : Prop :=
  brick_id a = brick_id b ∧ brick_color a = brick_color b
  ∧ same_float (brick_x a) (brick_x b).

(** No two bricks of the list at the same [x]. *)
Definition distinct_x (l : list Brick) : Prop :=
  ∀ i j a b, l !! i = Some a → l !! j = Some b →
    feq (brick_x a) (brick_x b) = true → i = j.

(** * Inputs *)

(** No green and no red brick. *)
Definition scenario_B : list Brick :=
  [ mkBrick "b1" "blue" (Finite 10) (Finite 0);
    mkBrick "b2" "yellow" (Finite 20) (Finite 0) ].

(** Two green bricks. *)
Definition scenario_C : list Brick :=
  [ mkBrick "b1" "green" (Finite 5) (Finite 0);
    mkBrick "b2" "green" (Finite 50) (Finite 0);
    mkBrick "b3" "red" (Finite 100) (Finite 0) ].

(** The green brick to the right of all others. *)
Definition green_rightmost : list Brick :=
  [ mkBrick "b1" "red" (Finite 10) (Finite 0);
    mkBrick "b2" "blue" (Finite 20) (Finite 0);
    mkBrick "b3" "green" (Finite 30) (Finite 0) ].

(** Three bricks at the same [x]. *)
Definition tied_bricks : list Brick :=
  [ mkBrick "b1" "red" (Finite 40) (Finite 0);
    mkBrick "b2" "blue" (Finite 20) (Finite 0);
    mkBrick "b3" "green" (Finite 20) (Finite 0);
    mkBrick "b4" "yellow" (Finite 20) (Finite 0) ].

(** A brick whose [x] is [nan] between two others: on both sides of it
    the next [x] is not less, and the list is one ascending run. *)
Definition nan_between : list Brick :=
  [ mkBrick "b1" "green" (Finite 5) (Finite 0);
    mkBrick "b2" "blue" NaN (Finite 0);
    mkBrick "b3" "red" (Finite 3) (Finite 0) ].

(** An identifier given to two bricks. *)
Definition repeated_id : list Brick :=
  [ mkBrick "a" "green" (Finite 1) (Finite 0);
    mkBrick "b" "blue" (Finite 2) (Finite 0);
    mkBrick "a" "blue" (Finite 3) (Finite 0);
    mkBrick "c" "red" (Finite 4) (Finite 0) ].

(** Two bricks at 5, the fifth and the seventh, after a brick whose [x]
    is [nan]. *)
Definition nan_before_ties : list Brick :=
  [ mkBrick "b1" "green" (Finite 1) (Finite 0);
    mkBrick "b2" "red" (Finite 2) (Finite 0);
    mkBrick "b3" "blue" (Finite 9) (Finite 0);
    mkBrick "b4" "blue" NaN (Finite 0);
    mkBrick "b5" "blue" (Finite 5) (Finite 0);
    mkBrick "b6" "blue" (Finite 4) (Finite 0);
    mkBrick "b7" "blue" (Finite 5) (Finite 0) ].

(** One row of three pixels, of hue 2, 178 and 90. *)
Definition three_hues : list (list HSV) :=
  [ [ (2, 200, 180)%Z; (178, 200, 180)%Z; (90, 200, 180)%Z ] ].

(** A grey pixel, a pixel between green and blue, and a pixel at the hue
    where yellow ends and green begins. *)
Definition odd_pixels : list (list HSV) :=
  [ [ (60, 20, 200)%Z; (88, 200, 200)%Z; (35, 150, 150)%Z ] ].

(** A list and the same list with [y] changed and a purple brick put in. *)
Definition plain_bricks : list Brick :=
  [ mkBrick "b1" "red" (Finite 30) (Finite 0);
    mkBrick "b2" "green" (Finite 10) (Finite 0) ].

Definition noisy_bricks : list Brick :=
  [ mkBrick "b1" "red" (Finite 30) (Finite 7);
    mkBrick "p" "purple" (Finite 20) (Finite 0);
    mkBrick "b2" "green" (Finite 10) (Finite 5) ].

(** The example bricks given from right to left. *)
Definition shuffled_bricks : list Brick := reverse example_bricks.

(** A list of bricks and another of the same colours, with other
    identifiers and places. *)
Definition two_by_colour : list Brick :=
  [ mkBrick "u" "green" (Finite 1) (Finite 1);
    mkBrick "v" "red" (Finite 2) (Finite 2);
    mkBrick "w" "red" (Finite 3) (Finite 3) ].

Definition two_by_colour' : list Brick :=
  [ mkBrick "k" "red" (Finite 9) (Finite 0);
    mkBrick "k" "green" (Finite 9) (Finite 0);
    mkBrick "k" "red" (Finite 9) (Finite 0) ].

(** ** A small instance of the library

    An image is a file name and an array. A colour array is read as hue,
    saturation and value already, and the conversion raises when a pixel
    has not three channels. Cleaning leaves a mask as it is; the selected
    pixels of a mask, if any, make one contour, each pixel weighing 100.
    The quotient of two finite floats is the exact one. *)
Module Toy.
Definition triple (px : list Z) : HSV :=
  match px with
  | [a; b; c] => (a, b, c)
  | _ => (0, 0, 0)%Z
  end.

Definition three_channels (a : list (list (list Z))) : bool :=
  forallb (forallb (λ px, length px =? 3)%nat) a.

Definition selected (mask : Mask) : list (nat * nat) :=
  mjoin (imap (λ r row,
    omap (λ p, p) (imap (λ c v, if decide (v = 0%Z) then None else Some (r, c)) row))
    mask).

Definition centre (ps : list (nat * nat)) : Moments :=
  mkMoments (Finite (inject_Z (100 * Z.of_nat (length ps))))
    (Finite (inject_Z (100 * foldr (λ p acc, (Z.of_nat p.2 + acc)%Z) 0%Z ps)))
    (Finite (inject_Z (100 * foldr (λ p acc, (Z.of_nat p.1 + acc)%Z) 0%Z ps))).

Definition quotient (a b : float) : float :=
  match a, b with
  | Finite p, Finite q => Finite (Qred (p / q))
  | _, _ => NaN
  end.

#[local] Instance cv2 : Cv2 := {|
  Image := string * ndarray;
  BGR := list (list (list Z));
  Contour := Moments;
  np_array := λ img, inr img.2;
  cvtColor_GRAY2BGR := λ a, inr (map (map (λ g, [g; g; g])) a);
  cvtColor_RGBA2BGR := λ a, inr (map (map (take 3)) a);
  cvtColor_RGB2BGR := λ a,
    if three_channels a then inr a
    else inl (LibraryError "Invalid number of channels in input image");
  cvtColor_BGR2HSV := λ a, inr (map (map triple) a);
  morphologyEx := λ mask _ _, inr mask;
  findContours := λ mask,
    inr (match selected mask with [] => [] | ps => [centre ps] end);
  contourArea := m00;
  moments := λ c, c;
  float_div := quotient
|}.

Definition strip : ndarray :=
  Array3 3 [ [ [60; 200; 200]; [100; 200; 200]; [2; 200; 200];
               [178; 200; 200] ]%Z ].

(** An array of two channels, as a greyscale image with transparency
    gives. *)
Definition two_channels : ndarray :=
  Array3 2 [ [ [60; 255]; [100; 255] ]%Z ].
End Toy.

(** An opener and exception texts for the small instance: no bytes do not
    open, one byte opens as the array of two channels, and anything longer
    as the strip. *)
Definition toy_open (bs : list Byte.byte) : string + (string * ndarray) :=
  match bs with
  | [] => inl "cannot identify image file"
  | [_] => inr ("upload", Toy.two_channels)
  | _ => inr ("upload", Toy.strip)
  end.

Definition toy_str (e : exn) : string :=
  match e with
  | LibraryError text => text
  | _ => "error"
  end.

(** Uploads for the small instance: one that decodes to the strip, one
    that does not open, one that opens and cannot be converted, and one
    that is declared as text. *)
Definition png_upload : UploadFile :=
  mkUploadFile (Some "image/png") [Byte.x89; Byte.x50].

Definition empty_upload : UploadFile := mkUploadFile (Some "image/png") [].

Definition grey_alpha_upload : UploadFile :=
  mkUploadFile (Some "image/png") [Byte.x89].

Definition text_upload : UploadFile :=
  mkUploadFile (Some "text/plain") [Byte.x89; Byte.x50].

(** * Properties *)

(** ** The exception monad *)

Lemma mapM_inr {A B} (f : A → exn + B) (g : A → B) (l : list A) :
  Forall (λ a, f a = inr (g a)) l → mapM f l = inr (g <$> l).
Proof.
  induction 1 as [|a l Ha _ IH]; [done|].
  cbn. rewrite Ha. cbn. rewrite IH. done.
Qed.

Lemma raise_inj {A} (e1 e2 : exn) : raise (A:=A) e1 = raise e2 → e1 = e2.
Proof. unfold raise. congruence. Qed.

(** ** Comparisons of floats *)

Lemma Qltb_lt (p q : Q) : Qltb p q = true ↔ (p < q)%Q.
Proof.
  unfold Qltb. rewrite negb_true_iff, <-not_true_iff_false, Qle_bool_iff.
  split; [apply Qnot_le_lt | apply Qlt_not_le].
Qed.

Lemma Qltb_ge (p q : Q) : Qltb p q = false ↔ (q <= p)%Q.
Proof.
  unfold Qltb. rewrite negb_false_iff. apply Qle_bool_iff.
Qed.

Lemma Qltb_proper p p' q q' : (p == p')%Q → (q == q')%Q → Qltb p q = Qltb p' q'.
Proof. intros Hp Hq. unfold Qltb. by rewrite Hp, Hq. Qed.

Lemma flt_irrefl a : flt a a = false.
Proof. destruct a as [p| | |]; simpl; [|done..]. apply Qltb_ge, Qle_refl. Qed.

Lemma flt_trans a b c : flt a b = true → flt b c = true → flt a c = true.
Proof.
  destruct a as [p| | |], b as [q| | |], c as [r| | |]; simpl; try done.
  rewrite !Qltb_lt. apply Qlt_trans.
Qed.

(** Not being less is transitive through a float that is not [nan]. *)
Lemma flt_incomparable a b c :
  b ≠ NaN → flt a b = false → flt b c = false → flt a c = false.
Proof.
  destruct a as [p| | |], b as [q| | |], c as [r| | |]; simpl; try done.
  rewrite !Qltb_ge. intros _ Hqp Hrq. by apply (Qle_trans _ q).
Qed.

Lemma feq_ties a b k : feq a k = true → feq b k = true → flt a b = false.
Proof.
  destruct a as [p| | |], b as [q| | |], k as [r| | |]; simpl; try done.
  rewrite !Qeq_bool_iff, Qltb_ge. intros -> ->. apply Qle_refl.
Qed.

Lemma feq_sym a b : feq a b = feq b a.
Proof.
  destruct a as [p| | |], b as [q| | |]; simpl; try done.
  apply eq_true_iff_eq. rewrite !Qeq_bool_iff. split; intros ->; reflexivity.
Qed.

Lemma feq_trans a b c : feq a b = true → feq b c = true → feq a c = true.
Proof.
  destruct a as [p| | |], b as [q| | |], c as [r| | |]; simpl; try done.
  rewrite !Qeq_bool_iff. intros -> ->. reflexivity.
Qed.

Lemma feq_refl a : a ≠ NaN → feq a a = true.
Proof.
  destruct a as [p| | |]; simpl; try done. intros _. by apply Qeq_bool_iff.
Qed.

Lemma feq_not_nan a b : feq a b = true → a ≠ NaN ∧ b ≠ NaN.
Proof. by destruct a, b. Qed.

(** Two floats neither of which is [nan] or less than the other are
    equal. *)
Lemma incomparable_feq a b :
  a ≠ NaN → b ≠ NaN → flt a b = false → flt b a = false → feq a b = true.
Proof.
  destruct a as [p| | |], b as [q| | |]; simpl; try done.
  rewrite !Qltb_ge, Qeq_bool_iff. intros _ _ Hqp Hpq. by apply Qle_antisym.
Qed.

Lemma not_after_fle a b :
  a ≠ NaN → b ≠ NaN → flt b a = false → fle a b = true.
Proof.
  intros Ha Hb Hba. unfold fle. destruct (flt a b) eqn:Hab; [done|].
  by apply incomparable_feq.
Qed.

Lemma same_float_flt a a' b b' :
  same_float a a' → same_float b b' → flt a b = flt a' b'.
Proof.
  destruct a as [p| | |], a' as [p'| | |]; simpl; try done;
    destruct b as [q| | |], b' as [q'| | |]; simpl; try done.
  apply Qltb_proper.
Qed.

(** ** [listsort] *)

Local Close Scope string_scope.

(** Whatever the comparison answers, the result holds the elements of the
    input. *)
Section listsort_any.
Context {A : Type} (lt : A → A → bool).

Lemma binary_insert_Permutation run pivot :
  binary_insert lt run pivot ≡ₚ run ++ [pivot].
Proof.
  unfold binary_insert. set (l := bisect _ _ _ _ _ _).
  rewrite <-Permutation_middle, take_drop. apply Permutation_cons_append.
Qed.

Lemma binarysort_Permutation run rest : binarysort lt run rest ≡ₚ run ++ rest.
Proof.
  unfold binarysort. revert run.
  induction rest as [|a rest IH]; intros run; simpl.
  - by rewrite app_nil_r.
  - by rewrite IH, binary_insert_Permutation, <-app_assoc.
Qed.

Lemma listsort_Permutation l : listsort lt l ≡ₚ l.
Proof.
  unfold listsort. destruct (count_run lt l) as [n d].
  rewrite binarysort_Permutation.
  destruct d; rewrite ?reverse_Permutation; by rewrite take_drop.
Qed.
End listsort_any.

Lemma StronglySorted_lookup_lt {A} (R : relation A) l i j x y :
  StronglySorted R l → l !! i = Some x → l !! j = Some y → i < j → R x y.
Proof.
  intros Hl. revert i j. induction Hl as [|a l _ IH Ha]; intros i j; [done|].
  destruct i as [|i], j as [|j]; simpl; try lia.
  - intros [= ->] Hy _. eapply Forall_forall in Ha; [done|].
    by eapply list_elem_of_lookup_2.
  - intros Hx Hy Hij. apply (IH i j); [done..|lia].
Qed.

Lemma StronglySorted_impl {A} (R1 R2 : relation A) l :
  (∀ x y, R1 x y → R2 x y) → StronglySorted R1 l → StronglySorted R2 l.
Proof.
  intros HR. induction 1 as [|a l _ IH Ha]; constructor; [done|].
  eapply Forall_impl; [exact Ha|]. intros y. apply HR.
Qed.

Lemma StronglySorted_reverse {A} (R : relation A) l :
  StronglySorted R l → StronglySorted (flip R) (reverse l).
Proof.
  induction 1 as [|a l _ IH Ha]; [constructor|].
  rewrite reverse_cons. apply StronglySorted_app_2; [|done|by repeat constructor].
  intros x y Hx ->%list_elem_of_singleton. rewrite elem_of_reverse in Hx.
  rewrite Forall_forall in Ha. unfold flip. by apply Ha.
Qed.

(** The comparison as it is on keys none of which is [nan]: nothing is
    before itself, being before is transitive, and so is not being before
    through an element that is [ok]. On a list of such elements the result
    is in order and stable. *)
Section listsort_ordered.
Context {A : Type} (lt : A → A → bool) (ok : A → Prop).
Hypothesis lt_irrefl : ∀ a, lt a a = false.
Hypothesis lt_trans : ∀ a b c, lt a b = true → lt b c = true → lt a c = true.
Hypothesis lt_incomparable : ∀ a b c,
  ok b → lt a b = false → lt b c = false → lt a c = false.

Lemma lt_asym a b : lt a b = true → lt b a = false.
Proof.
  intros Hab. destruct (lt b a) eqn:Hba; [|done].
  by rewrite <-(lt_irrefl a), (lt_trans a b a).
Qed.

Lemma Sorted_not_after_strongly l :
  Forall ok l → Sorted (not_after lt) l → StronglySorted (not_after lt) l.
Proof.
  intros Hok Hs. induction Hs as [|a l Hl IH Hhd]; [constructor|].
  apply Forall_cons in Hok as [_ Hok]. constructor; [by apply IH|].
  destruct Hhd as [|b l Hab]; [constructor|].
  assert (ok b) as Hb by (by apply Forall_cons in Hok as [? _]).
  apply IH in Hok as Hs. apply StronglySorted_inv in Hs as [_ Hall].
  constructor; [done|]. eapply Forall_impl; [done|].
  intros c Hbc. unfold not_after in *. by apply (lt_incomparable c b a).
Qed.

#[local] Instance after_trans : Transitive (after lt).
Proof. intros a b c Hab Hbc. unfold after in *. by apply (lt_trans c b a). Qed.

Lemma ascending_Sorted prev l :
  Sorted (not_after lt) (prev :: take (ascending lt prev l) l).
Proof.
  revert prev. induction l as [|a l IH]; intros prev; simpl.
  - by repeat constructor.
  - destruct (lt a prev) eqn:Hlt; simpl; [by repeat constructor|].
    constructor; [apply IH|]. by constructor.
Qed.

Lemma descending_Sorted prev l :
  Sorted (after lt) (prev :: take (descending lt prev l) l).
Proof.
  revert prev. induction l as [|a l IH]; intros prev; simpl.
  - by repeat constructor.
  - destruct (lt a prev) eqn:Hlt; simpl; [|by repeat constructor].
    constructor; [apply IH|]. by constructor.
Qed.

(** The first run, once a descending one is reversed, is in order. *)
Lemma first_run_Sorted l :
  Forall ok l → StronglySorted (not_after lt) (first_run lt l).
Proof.
  intros Hok. unfold first_run, count_run.
  destruct l as [|a [|b l]]; [constructor|by repeat constructor|].
  destruct (lt b a) eqn:Hlt; cbn [take Nat.add].
  - pose proof (descending_Sorted b l) as Hs.
    assert (Sorted (after lt) (a :: b :: take (descending lt b l) l)) as Hs'
      by (constructor; [done|by constructor]).
    apply Sorted_StronglySorted, StronglySorted_reverse in Hs'; [|apply _].
    eapply StronglySorted_impl; [|exact Hs'].
    intros x y Hxy. by apply lt_asym.
  - apply Sorted_not_after_strongly.
    + change (Forall ok (take (S (S (ascending lt b l))) (a :: b :: l))).
      by apply Forall_take.
    + constructor; [apply ascending_Sorted|by constructor].
Qed.

(** In a run in order, the elements the pivot is before come last. *)
Lemma lt_monotone pivot run j k x y :
  StronglySorted (not_after lt) run → Forall ok run →
  run !! j = Some x → run !! k = Some y → j ≤ k →
  lt pivot x = true → lt pivot y = true.
Proof.
  intros Hs Hok Hx Hy Hjk Hpx.
  destruct (decide (j = k)) as [->|Hne]; [congruence|].
  assert (not_after lt x y) as Hxy.
  { apply (StronglySorted_lookup_lt _ run j k); [done..|lia]. }
  destruct (lt pivot y) eqn:Hpy; [done|].
  rewrite (lt_incomparable pivot y x) in Hpx; [done| |done..].
  rewrite Forall_forall in Hok. by eapply Hok, list_elem_of_lookup_2.
Qed.

(** Where [bisect] stops in a run that is in order: the elements before it
    are not after the pivot, and the pivot is before those from it on. *)
Lemma bisect_spec fuel pivot run l r :
  StronglySorted (not_after lt) run → Forall ok run →
  l ≤ r ≤ length run → r - l ≤ fuel →
  (∀ j x, j < l → run !! j = Some x → lt pivot x = false) →
  (∀ j x, r ≤ j → run !! j = Some x → lt pivot x = true) →
  (∀ j x, j < bisect lt fuel pivot run l r → run !! j = Some x →
     lt pivot x = false)
  ∧ (∀ j x, bisect lt fuel pivot run l r ≤ j → run !! j = Some x →
       lt pivot x = true).
Proof.
  intros Hs Hok. revert l r.
  induction fuel as [|fuel IH]; intros l r Hlr Hfuel Hl Hr; cbn [bisect].
  - assert (l = r) as -> by lia. done.
  - case_decide as Hlt; [|assert (l = r) as -> by lia; done].
    cbv zeta. assert (l ≤ l + (r - l) / 2 < r) as Hp.
    { pose proof (Nat.div_lt (r - l) 2). pose proof (Nat.le_0_l ((r - l) / 2)).
      lia. }
    set (p := l + (r - l) / 2) in *.
    destruct (lookup_lt_is_Some_2 run p) as [a Ha]; [lia|]. rewrite Ha.
    destruct (lt pivot a) eqn:Hpa.
    + apply IH; [lia|lia|done|].
      intros j x Hj Hx. by apply (lt_monotone pivot run p j a x).
    + apply IH; [lia|lia| |done].
      intros j x Hj Hx. destruct (lt pivot x) eqn:Hpx; [|done].
      rewrite (lt_monotone pivot run j p x a) in Hpa; [done..|lia|done].
Qed.

Lemma bisect_bounds fuel pivot run l r :
  l ≤ r → l ≤ bisect lt fuel pivot run l r ≤ r.
Proof.
  revert l r. induction fuel as [|fuel IH]; intros l r Hlr; cbn [bisect]; [lia|].
  case_decide as Hlt; [|lia].
  cbv zeta. assert (l ≤ l + (r - l) / 2 < r) as Hp.
  { pose proof (Nat.div_lt (r - l) 2). lia. }
  set (p := l + (r - l) / 2) in *.
  destruct (run !! p) as [a|]; [|lia].
  destruct (lt pivot a).
  - specialize (IH l p). lia.
  - specialize (IH (p + 1) r). lia.
Qed.

Lemma binary_insert_Sorted run pivot :
  StronglySorted (not_after lt) run → Forall ok run →
  StronglySorted (not_after lt) (binary_insert lt run pivot).
Proof.
  intros Hs Hok. unfold binary_insert.
  destruct (bisect_spec (length run) pivot run 0 (length run)) as [Hbefore Hafter];
    [done|done|lia|lia|lia| |].
  { intros j x Hj Hx%lookup_lt_Some. lia. }
  set (l := bisect _ _ _ _ _ _) in *.
  rewrite <-(take_drop l run) in Hs.
  apply StronglySorted_app in Hs as (Hlr & Hleft & Hright).
  apply StronglySorted_app_2; [|done|constructor; [done|]].
  - intros x y [j [Hx Hj]%lookup_take_Some]%list_elem_of_lookup
      [->|Hy]%elem_of_cons.
    + by apply (Hbefore j).
    + by apply Hlr; [eapply list_elem_of_lookup_2, lookup_take_Some|].
  - apply Forall_forall. intros x [j Hx]%list_elem_of_lookup.
    rewrite lookup_drop in Hx. apply lt_asym. apply (Hafter (l + j)); [lia|done].
Qed.

(** Elements none of which is before another keep their places among
    themselves. *)
Section stable.
Context (P : A → Prop) `{!∀ a, Decision (P a)}.
Hypothesis P_ties : ∀ a b, P a → P b → lt a b = false.

Lemma filter_none_such l : (∀ a, a ∈ l → ¬ P a) → filter P l = [].
Proof.
  induction l as [|a l IH]; intros Hl; [done|].
  rewrite filter_cons_False by (apply Hl; left).
  apply IH. intros b Hb. apply Hl. by right.
Qed.

Lemma binary_insert_stable run pivot :
  StronglySorted (not_after lt) run → Forall ok run →
  filter P (binary_insert lt run pivot) = filter P (run ++ [pivot]).
Proof.
  intros Hs Hok. unfold binary_insert.
  destruct (bisect_spec (length run) pivot run 0 (length run)) as [_ Hafter];
    [done|done|lia|lia|lia| |].
  { intros j x Hj Hx%lookup_lt_Some. lia. }
  set (l := bisect _ _ _ _ _ _) in *.
  rewrite <-(take_drop l run) at 3.
  rewrite !filter_app, !filter_cons, filter_nil.
  destruct (decide (P pivot)) as [Hp|Hp]; [|by rewrite app_nil_r].
  rewrite (filter_none_such (drop l run)); [by rewrite app_nil_r|].
  intros x [j Hx]%list_elem_of_lookup Hpx. rewrite lookup_drop in Hx.
  specialize (Hafter (l + j) x ltac:(lia) Hx).
  by rewrite (P_ties pivot x) in Hafter.
Qed.

(** A descending run holds at most one of them, so reversing it changes
    nothing among them. *)
Lemma after_filter_short l :
  StronglySorted (after lt) l → length (filter P l) ≤ 1.
Proof.
  induction 1 as [|a l _ IH Ha]; [simpl; lia|].
  rewrite filter_cons. destruct (decide (P a)) as [Hp|Hp]; [|done].
  rewrite filter_none_such; [simpl; lia|].
  intros b Hb Hpb. rewrite Forall_forall in Ha. specialize (Ha b Hb).
  unfold after in Ha. by rewrite (P_ties b a) in Ha.
Qed.

Lemma first_run_stable l :
  filter P (first_run lt l) = filter P (take (count_run lt l).1 l).
Proof.
  unfold first_run, count_run.
  destruct l as [|a [|b l]]; [done..|].
  destruct (lt b a) eqn:Hlt; cbn [take Nat.add fst]; [|done].
  rewrite filter_reverse.
  assert (Sorted (after lt) (a :: b :: take (descending lt b l) l)) as Hs
    by (constructor; [apply descending_Sorted|by constructor]).
  apply Sorted_StronglySorted, after_filter_short in Hs; [|apply _].
  by destruct (filter P _) as [|x [|y t]]; [..|simpl in Hs; lia].
Qed.

Lemma binarysort_stable run rest :
  StronglySorted (not_after lt) run → Forall ok run → Forall ok rest →
  StronglySorted (not_after lt) (binarysort lt run rest)
  ∧ filter P (binarysort lt run rest) = filter P (run ++ rest).
Proof.
  unfold binarysort. revert run.
  induction rest as [|a rest IH]; intros run Hs Hok Hrest; simpl.
  - by rewrite app_nil_r.
  - apply Forall_cons in Hrest as [Ha Hrest].
    destruct (IH (binary_insert lt run a)) as [Hs' Hf]; [|  |done|].
    + by apply binary_insert_Sorted.
    + rewrite binary_insert_Permutation. apply Forall_app. by repeat constructor.
    + split; [done|]. rewrite Hf, !filter_app, binary_insert_stable by done.
      rewrite filter_app, <-app_assoc. f_equal.
      rewrite !filter_cons, filter_nil. by destruct (decide (P a)).
Qed.

Lemma listsort_stable l :
  Forall ok l →
  StronglySorted (not_after lt) (listsort lt l)
  ∧ filter P (listsort lt l) = filter P l.
Proof.
  intros Hok. pose proof (first_run_Sorted l Hok) as Hs.
  pose proof (first_run_stable l) as Hf.
  unfold listsort, first_run in *. destruct (count_run lt l) as [n d].
  destruct (binarysort_stable (if d then reverse (take n l) else take n l)
    (drop n l)) as [Hs' Hf']; [done| |by apply Forall_drop|].
  { destruct d; [apply Forall_reverse|]; by apply Forall_take. }
  split; [done|]. rewrite Hf', filter_app, Hf, <-filter_app. simpl.
  by rewrite take_drop.
Qed.
End stable.

Lemma listsort_Sorted l :
  Forall ok l → StronglySorted (not_after lt) (listsort lt l).
Proof.
  intros Hok. by destruct (listsort_stable (λ _, False) ltac:(done) l Hok).
Qed.
End listsort_ordered.

(** What [listsort] does is fixed by the outcomes of the comparisons. *)
Section listsort_related.
Context {A : Type} (lt : A → A → bool) (R : A → A → Prop).
Hypothesis R_lt : ∀ a a' b b', R a a' → R b b' → lt a b = lt a' b'.

Lemma ascending_related prev prev' l l' :
  R prev prev' → Forall2 R l l' → ascending lt prev l = ascending lt prev' l'.
Proof.
  intros Hp Hl. revert prev prev' Hp.
  induction Hl as [|a a' l l' Ha _ IH]; intros prev prev' Hp; [done|].
  simpl. rewrite (R_lt a a' prev prev') by done.
  destruct (lt a' prev'); [done|]. f_equal. by apply IH.
Qed.

Lemma descending_related prev prev' l l' :
  R prev prev' → Forall2 R l l' → descending lt prev l = descending lt prev' l'.
Proof.
  intros Hp Hl. revert prev prev' Hp.
  induction Hl as [|a a' l l' Ha _ IH]; intros prev prev' Hp; [done|].
  simpl. rewrite (R_lt a a' prev prev') by done.
  destruct (lt a' prev'); [|done]. f_equal. by apply IH.
Qed.

Lemma count_run_related l l' :
  Forall2 R l l' → count_run lt l = count_run lt l'.
Proof.
  intros Hl. destruct Hl as [|a a' l l' Ha Hl]; [done|].
  destruct Hl as [|b b' l l' Hb Hl]; [done|].
  cbn [count_run]. rewrite (R_lt b b' a a') by done.
  by rewrite (ascending_related b b' l l'), (descending_related b b' l l').
Qed.

Lemma bisect_related fuel pivot pivot' run run' l r :
  R pivot pivot' → Forall2 R run run' →
  bisect lt fuel pivot run l r = bisect lt fuel pivot' run' l r.
Proof.
  intros Hp Hrun. revert l r.
  induction fuel as [|fuel IH]; intros l r; cbn [bisect]; [done|].
  case_decide; [|done]. cbv zeta.
  destruct (proj1 (Forall2_lookup _ _ _) Hrun (l + (r - l) / 2)) as [a a' Ha|];
    [|done].
  rewrite (R_lt pivot pivot' a a') by done. by rewrite !IH.
Qed.

Lemma binary_insert_related pivot pivot' run run' :
  R pivot pivot' → Forall2 R run run' →
  Forall2 R (binary_insert lt run pivot) (binary_insert lt run' pivot').
Proof.
  intros Hp Hrun. unfold binary_insert.
  rewrite (bisect_related _ pivot pivot' run run' _ _ Hp Hrun).
  rewrite (Forall2_length _ _ _ Hrun).
  apply Forall2_app; [by apply Forall2_take|].
  constructor; [done|]. by apply Forall2_drop.
Qed.

Lemma binarysort_related run run' rest rest' :
  Forall2 R run run' → Forall2 R rest rest' →
  Forall2 R (binarysort lt run rest) (binarysort lt run' rest').
Proof.
  intros Hrun Hrest. unfold binarysort. revert run run' Hrun.
  induction Hrest as [|a a' rest rest' Ha _ IH]; intros run run' Hrun; [done|].
  simpl. by apply IH, binary_insert_related.
Qed.

Lemma listsort_related l l' :
  Forall2 R l l' → Forall2 R (listsort lt l) (listsort lt l').
Proof.
  intros Hl. unfold listsort. rewrite (count_run_related l l' Hl).
  destruct (count_run lt l') as [n d].
  apply binarysort_related; [|by apply Forall2_drop].
  destruct d; [apply Forall2_reverse|]; by apply Forall2_take.
Qed.
End listsort_related.

Local Open Scope string_scope.

(** ** [sorted] *)

Section sorted.
Context {A : Type} (key : A → float).

Lemma key_lt_irrefl a : key_lt key a a = false.
Proof. apply flt_irrefl. Qed.

Lemma key_lt_trans a b c :
  key_lt key a b = true → key_lt key b c = true → key_lt key a c = true.
Proof. apply flt_trans. Qed.

Lemma key_lt_incomparable a b c :
  key b ≠ NaN → key_lt key a b = false → key_lt key b c = false →
  key_lt key a c = false.
Proof. apply flt_incomparable. Qed.

(** The result holds the elements of the input, whatever the keys. *)
Lemma sorted_Permutation l : sorted key l ≡ₚ l.
Proof. apply listsort_Permutation. Qed.

Lemma length_sorted l : length (sorted key l) = length l.
Proof. apply Permutation_length, sorted_Permutation. Qed.

(** Without [nan] among the keys the result is in order. *)
Lemma sorted_Sorted l :
  Forall (λ a, key a ≠ NaN) l →
  StronglySorted (not_after (key_lt key)) (sorted key l).
Proof.
  apply (listsort_Sorted (key_lt key) (λ a, key a ≠ NaN) key_lt_irrefl
    key_lt_trans key_lt_incomparable).
Qed.

(** Stability: without [nan] among the keys, the elements of any one key
    keep the order of the input. *)
Lemma sorted_filter_key k l :
  Forall (λ a, key a ≠ NaN) l →
  filter (λ b, feq (key b) k = true) (sorted key l)
  = filter (λ b, feq (key b) k = true) l.
Proof.
  intros Hl.
  apply (listsort_stable (key_lt key) (λ a, key a ≠ NaN) key_lt_irrefl
    key_lt_trans key_lt_incomparable); [|done].
  intros a b Ha Hb. by apply (feq_ties _ _ k).
Qed.

Lemma not_after_head a t b :
  StronglySorted (not_after (key_lt key)) (a :: t) → b ∈ a :: t →
  not_after (key_lt key) a b.
Proof.
  intros [_ Hall]%StronglySorted_inv [->|Hb]%elem_of_cons.
  - apply key_lt_irrefl.
  - rewrite Forall_forall in Hall. by apply Hall.
Qed.

(** Without [nan] among the keys a stable sort has one possible result:
    two lists in order that hold, for every key, the same elements in the
    same order are equal. *)
Lemma stable_sort_unique l1 l2 :
  Forall (λ a, key a ≠ NaN) l1 → Forall (λ a, key a ≠ NaN) l2 →
  StronglySorted (not_after (key_lt key)) l1 →
  StronglySorted (not_after (key_lt key)) l2 →
  (∀ k, filter (λ b, feq (key b) k = true) l1
        = filter (λ b, feq (key b) k = true) l2) →
  l1 = l2.
Proof.
  revert l2. induction l1 as [|a t1 IH]; intros [|b t2] Hn1 Hn2 Hs1 Hs2 Hf.
  - done.
  - apply Forall_cons in Hn2 as [Hb _]. specialize (Hf (key b)).
    by rewrite filter_cons_True in Hf by (by apply feq_refl).
  - apply Forall_cons in Hn1 as [Ha _]. specialize (Hf (key a)).
    by rewrite filter_cons_True in Hf by (by apply feq_refl).
  - apply Forall_cons in Hn1 as [Ha Hn1]. apply Forall_cons in Hn2 as [Hb Hn2].
    assert (feq (key a) (key b) = true) as Hab.
    { apply incomparable_feq; [done..| |].
      - apply (not_after_head b t2 a Hs2).
        apply (list_elem_of_filter (λ c, feq (key c) (key a) = true)).
        rewrite <-(Hf (key a)), filter_cons_True by (by apply feq_refl). left.
      - apply (not_after_head a t1 b Hs1).
        apply (list_elem_of_filter (λ c, feq (key c) (key b) = true)).
        rewrite (Hf (key b)), filter_cons_True by (by apply feq_refl). left. }
    assert (a = b) as <-.
    { specialize (Hf (key a)).
      rewrite !filter_cons_True in Hf by (by apply feq_refl || by rewrite feq_sym).
      congruence. }
    f_equal. apply StronglySorted_inv in Hs1 as [Hs1 _].
    apply StronglySorted_inv in Hs2 as [Hs2 _]. apply IH; [done..|].
    intros k. specialize (Hf k). rewrite !filter_cons in Hf.
    destruct (decide (feq (key a) k = true)); congruence.
Qed.

(** So, without [nan] among the keys, [sorted] returns what any stable
    sort of the input returns. *)
Lemma sorted_unique l l' :
  Forall (λ a, key a ≠ NaN) l → l' ≡ₚ l →
  StronglySorted (not_after (key_lt key)) l' →
  (∀ k, filter (λ b, feq (key b) k = true) l'
        = filter (λ b, feq (key b) k = true) l) →
  l' = sorted key l.
Proof.
  intros Hl Hp Hs Hf. apply stable_sort_unique.
  - by rewrite Hp.
  - by rewrite sorted_Permutation.
  - done.
  - by apply sorted_Sorted.
  - intros k. by rewrite sorted_filter_key.
Qed.
End sorted.
(** ** The colour table *)

Lemma valid_color_iff b :
  valid_color b ↔ brick_color b ∈ ["green"; "blue"; "yellow"; "red"].
Proof.
  unfold valid_color, COLOR_TO_TYPE.
  rewrite !lookup_insert_is_Some, lookup_empty, !elem_of_cons, elem_of_nil.
  split.
  - intros [?|[? [?|[? [?|[? [?|[? H]]]]]]]]; [naive_solver..|].
    by destruct H.
  - intros [->|[->|[->|[->|[]]]]]; naive_solver.
Qed.

Lemma COLOR_TO_TYPE_Start c : COLOR_TO_TYPE !! c = Some "Start" ↔ c = "green".
Proof.
  unfold COLOR_TO_TYPE. rewrite !lookup_insert_Some, lookup_empty. split.
  - intros [[? _]|[_ [[_ ?]|[_ [[_ ?]|[_ [[_ ?]|[_ ?]]]]]]]]; done.
  - intros ->. by left.
Qed.

Lemma COLOR_TO_TYPE_End c : COLOR_TO_TYPE !! c = Some "End" ↔ c = "red".
Proof.
  unfold COLOR_TO_TYPE. rewrite !lookup_insert_Some, lookup_empty. split.
  - intros [[_ ?]|[_ [[_ ?]|[_ [[_ ?]|[? [[? _]|[_ ?]]]]]]]]; done.
  - intros ->. do 3 (right; split; [done|]). by left.
Qed.

Lemma make_node_valid b : valid_color b → make_node b = inr (node_of b).
Proof.
  intros [t Ht]. unfold make_node, node_of, getitem. by rewrite Ht.
Qed.

Lemma node_of_Start b : node_type (node_of b) = "Start" ↔ brick_color b = "green".
Proof.
  rewrite <-COLOR_TO_TYPE_Start. simpl.
  destruct (COLOR_TO_TYPE !! brick_color b); simpl; naive_solver.
Qed.

Lemma node_of_End b : node_type (node_of b) = "End" ↔ brick_color b = "red".
Proof.
  rewrite <-COLOR_TO_TYPE_End. simpl.
  destruct (COLOR_TO_TYPE !! brick_color b); simpl; naive_solver.
Qed.

Lemma count_color_valid c l :
  c ∈ ["green"; "blue"; "yellow"; "red"] →
  count_color c (filter valid_color l) = count_color c l.
Proof.
  intros Hc. unfold count_color. f_equal.
  rewrite list_filter_filter. apply list_filter_iff.
  intros b. rewrite valid_color_iff. split; [by intros [? _]|].
  by intros ->.
Qed.

Lemma count_color_sorted c l : count_color c (sorted brick_x l) = count_color c l.
Proof.
  unfold count_color. by rewrite (sorted_Permutation brick_x l).
Qed.

Lemma length_filter_nodes (P : Node → Prop) `{!∀ n, Decision (P n)} c l :
  (∀ b, P (node_of b) ↔ brick_color b = c) →
  length (filter P (node_of <$> l)) = count_color c l.
Proof.
  intros HP. unfold count_color.
  induction l as [|b l IH]; [done|].
  rewrite fmap_cons, !filter_cons.
  destruct (decide (P (node_of b))) as [Hn|Hn],
    (decide (brick_color b = c)) as [Hb|Hb]; simpl; rewrite ?IH; try done.
  - by apply HP in Hn.
  - by apply HP in Hb.
Qed.

(** ** The edges *)

Lemma make_edge_in_range l i : i + 1 < length l → make_edge l i = inr (edge_at l i).
Proof.
  intros Hi. unfold make_edge, edge_at, list_getitem.
  destruct (lookup_lt_is_Some_2 l i) as [a Ha]; [lia|].
  destruct (lookup_lt_is_Some_2 l (i + 1)) as [b Hb]; [lia|].
  by rewrite Ha, Hb.
Qed.

Lemma make_edges l :
  mapM (make_edge l) (seq 0 (length l - 1))
  = inr (edge_at l <$> seq 0 (length l - 1)).
Proof.
  apply mapM_inr, Forall_forall. intros i Hi%elem_of_seq.
  apply make_edge_in_range. lia.
Qed.

(** ** [bricks_to_workflow], path by path *)

Lemma Forall_valid_sorted bricks :
  Forall valid_color (sorted brick_x (filter valid_color bricks)).
Proof.
  rewrite (sorted_Permutation brick_x). apply Forall_forall.
  by intros b [? _]%list_elem_of_filter.
Qed.

Lemma bricks_to_workflow_spec bricks :
  bricks_to_workflow bricks =
    if decide (filter valid_color bricks = []) then raise NoInterpretableObjects
    else if decide (count_color "green" bricks = 0) then raise MissingStart
    else if decide (1 < count_color "green" bricks) then
      raise (DuplicateStart (count_color "green" bricks))
    else if decide (count_color "red" bricks = 0) then raise MissingEnd
    else if decide (1 < count_color "red" bricks) then
      raise (DuplicateEnd (count_color "red" bricks))
    else inr (graph_of bricks).
Proof.
  assert (∀ c, c ∈ ["green"; "blue"; "yellow"; "red"] →
    count_color c (sorted brick_x (filter valid_color bricks))
    = count_color c bricks) as Hcount.
  { intros c Hc. by rewrite count_color_sorted, count_color_valid. }
  pose proof (Forall_valid_sorted bricks) as Hvalid.
  unfold bricks_to_workflow, graph_of.
  destruct (filter valid_color bricks) as [|b0 vb] eqn:Hvb; [done|].
  rewrite decide_False by done.
  rewrite (mapM_inr make_node node_of)
    by (eapply Forall_impl; [done|]; apply make_node_valid).
  cbn [mbind exn_bind].
  rewrite (length_filter_nodes _ "green") by apply node_of_Start.
  rewrite (length_filter_nodes _ "red") by apply node_of_End.
  rewrite !Hcount by (rewrite !elem_of_cons; auto).
  repeat case_decide; try done.
  by rewrite make_edges.
Qed.

(** ** The messages of the validation failures *)

Lemma pretty_N_go_no_space (x : N) s : no_space s → no_space (pretty_N_go x s).
Proof.
  revert s. induction (N.lt_wf_0 x) as [x _ IH]; intros s Hs.
  assert (x = 0 ∨ 0 < x)%N as [->|Hx] by lia; [done|].
  rewrite pretty_N_go_step by done. apply IH; [by apply N.div_lt|].
  split; [|done]. unfold pretty_N_char. by repeat case_match.
Qed.

Lemma pretty_nat_no_space (n : nat) : no_space (pretty n).
Proof.
  unfold pretty, pretty_nat, pretty, pretty_N.
  case_decide; [done|]. by apply pretty_N_go_no_space.
Qed.

Lemma app_space_inj s1 s2 t1 t2 :
  no_space s1 → no_space s2 →
  s1 +:+ String " " t1 = s2 +:+ String " " t2 → s1 = s2 ∧ t1 = t2.
Proof.
  revert s2. induction s1 as [|c s1 IH]; intros [|d s2]; simpl.
  - by intros _ _ [= ->].
  - by intros _ [Hd _] [= <-].
  - by intros [Hc _] _ [= ->].
  - intros [_ H1] [_ H2] [= -> Heq]. by destruct (IH _ H1 H2 Heq) as [-> ->].
Qed.

Lemma DuplicateStart_inj n m : DuplicateStart n = DuplicateStart m → n = m.
Proof.
  unfold DuplicateStart, duplicate_start_message. intros [= Heq].
  apply app_space_inj in Heq as [Heq _]; auto using pretty_nat_no_space.
  by apply pretty_nat_inj in Heq.
Qed.

Lemma DuplicateEnd_inj n m : DuplicateEnd n = DuplicateEnd m → n = m.
Proof.
  unfold DuplicateEnd, duplicate_end_message. intros [= Heq].
  apply app_space_inj in Heq as [Heq _]; auto using pretty_nat_no_space.
  by apply pretty_nat_inj in Heq.
Qed.

Lemma DuplicateStart_not_End n m : DuplicateStart n ≠ DuplicateEnd m.
Proof.
  unfold DuplicateStart, DuplicateEnd, duplicate_start_message,
    duplicate_end_message. intros [= Heq].
  by apply app_space_inj in Heq as [_ ?]; auto using pretty_nat_no_space.
Qed.

(** The five kinds of failure are told apart by their messages. *)
Lemma failures_distinct n m :
  NoInterpretableObjects ≠ MissingStart ∧ NoInterpretableObjects ≠ MissingEnd
  ∧ NoInterpretableObjects ≠ DuplicateStart n
  ∧ NoInterpretableObjects ≠ DuplicateEnd n
  ∧ MissingStart ≠ MissingEnd ∧ MissingStart ≠ DuplicateStart n
  ∧ MissingStart ≠ DuplicateEnd n ∧ MissingEnd ≠ DuplicateStart n
  ∧ MissingEnd ≠ DuplicateEnd n ∧ DuplicateStart n ≠ DuplicateEnd m.
Proof.
  repeat split; try done. apply DuplicateStart_not_End.
Qed.

(** ** Start and End nodes *)

Lemma count_Start_graph_of bricks :
  count_type "Start" (nodes (graph_of bricks)) = count_color "green" bricks.
Proof.
  unfold count_type, graph_of. cbn [nodes].
  rewrite (length_filter_nodes _ "green") by apply node_of_Start.
  rewrite count_color_sorted. apply count_color_valid.
  rewrite !elem_of_cons. auto.
Qed.

Lemma count_End_graph_of bricks :
  count_type "End" (nodes (graph_of bricks)) = count_color "red" bricks.
Proof.
  unfold count_type, graph_of. cbn [nodes].
  rewrite (length_filter_nodes _ "red") by apply node_of_End.
  rewrite count_color_sorted. apply count_color_valid.
  rewrite !elem_of_cons. auto.
Qed.

Lemma bricks_to_workflow_inr bricks g :
  bricks_to_workflow bricks = inr g ↔
    filter valid_color bricks ≠ [] ∧ count_color "green" bricks = 1
    ∧ count_color "red" bricks = 1 ∧ g = graph_of bricks.
Proof.
  rewrite bricks_to_workflow_spec. unfold raise.
  repeat case_decide; split; try done; try (intros (?&?&?&?); done || lia).
  - intros [= <-]. repeat split; [done|lia..].
  - by intros (_&_&_&->).
Qed.

Lemma count_color_pos_valid c bricks :
  c ∈ ["green"; "blue"; "yellow"; "red"] →
  count_color c bricks ≠ 0 → filter valid_color bricks ≠ [].
Proof.
  intros Hc Hn Hnil. rewrite <-(count_color_valid c) in Hn by done.
  by rewrite Hnil in Hn.
Qed.

(** C1. Every workflow graph that [bricks_to_workflow] returns has exactly
    one node of type Start and exactly one node of type End. *)
Theorem exactly_one_Start_and_End bricks g :
  bricks_to_workflow bricks = inr g →
  count_type "Start" (nodes g) = 1 ∧ count_type "End" (nodes g) = 1.
Proof.
  intros (_ & Hs & He & ->)%bricks_to_workflow_inr.
  by rewrite count_Start_graph_of, count_End_graph_of.
Qed.

Lemma exactly_one_Start_and_End_witness :
  ∃ g, bricks_to_workflow example_bricks = inr g
    ∧ count_type "Start" (nodes g) = 1 ∧ count_type "End" (nodes g) = 1.
Proof.
  eexists. split; [vm_compute; reflexivity|].
  apply (exactly_one_Start_and_End example_bricks). vm_compute. reflexivity.
Defined.

(** ** Failures *)

(** C3. [bricks_to_workflow] fails exactly when no brick has a recognised
    colour (the failure is then NoInterpretableObjects, as for the empty
    list), or the number of green bricks is not one, or the number of red
    bricks is not one. Every failure is a [ValueError]. Where the Start
    and the End node stand is not checked: one green and one red brick are
    enough, also with the green brick rightmost. *)
Theorem failure_iff_empty_or_wrong_count bricks :
  ((∃ e, bricks_to_workflow bricks = raise e) ↔
     filter valid_color bricks = [] ∨ count_color "green" bricks ≠ 1
     ∨ count_color "red" bricks ≠ 1)
  ∧ (bricks_to_workflow bricks = raise NoInterpretableObjects ↔
       filter valid_color bricks = [])
  ∧ (∀ e, bricks_to_workflow bricks = raise e → ∃ msg, e = ValueError msg)
  ∧ (count_color "green" bricks = 1 ∧ count_color "red" bricks = 1 →
       bricks_to_workflow bricks = inr (graph_of bricks))
  ∧ bricks_to_workflow [] = raise NoInterpretableObjects
  ∧ bricks_to_workflow green_rightmost =
      inr (mkWorkflowGraph
             [mkNode "b1" "End"; mkNode "b2" "Action"; mkNode "b3" "Start"]
             [("b1", "b2"); ("b2", "b3")]).
Proof.
  pose proof (failures_distinct (count_color "green" bricks)
    (count_color "red" bricks)) as (?&?&?&_).
  pose proof (failures_distinct (count_color "red" bricks) 0) as (_&_&_&?&_).
  split_and!; try done.
  - rewrite bricks_to_workflow_spec. unfold raise.
    repeat case_decide; split; eauto; try (intros [?|[?|?]]; done || lia);
      try (intros _; right; lia).
    by intros [? ?].
  - rewrite bricks_to_workflow_spec. unfold raise.
    repeat case_decide; split; try done; intros [= Heq]; congruence.
  - intros e. rewrite bricks_to_workflow_spec. unfold raise.
    repeat case_decide; intros [= <-]; eauto.
  - intros [Hs He]. apply bricks_to_workflow_inr. split_and!; try done.
    apply (count_color_pos_valid "green"); [|lia]. rewrite !elem_of_cons. auto.
Qed.

(** With neither a green nor a red brick the first check that fails raises,
    and the failure raised is the Start one alone: it is not the End
    failure, and its message does not name End. *)
Lemma scenario_B_End_not_reported :
  ¬ (bricks_to_workflow scenario_B = raise MissingStart
     ∧ (bricks_to_workflow scenario_B = raise MissingEnd
        ∨ mentions "End" (bricks_to_workflow scenario_B) = true)).
Proof.
  intros [_ [H|H]]; vm_compute in H; discriminate H.
Qed.

(** C4, as the code has it. For the bricks [(blue, x=10), (yellow, x=20)]
    [bricks_to_workflow] fails with MissingStart, whose message is the one
    below. No brick is red either, but that is not reported: the checks run
    in order and the first that fails raises, so whenever a brick of a
    recognised colour is there and none is green, the failure is
    MissingStart whatever the number of red bricks. *)
Theorem scenario_B_fails_with_MissingStart_only :
  bricks_to_workflow scenario_B = raise MissingStart
  ∧ MissingStart
    = ValueError "Workflow must have exactly one Start node (green brick)"
  ∧ count_color "red" scenario_B = 0
  ∧ bricks_to_workflow scenario_B ≠ raise MissingEnd
  ∧ mentions "End" (bricks_to_workflow scenario_B) = false
  ∧ (∀ bricks, filter valid_color bricks ≠ [] →
       count_color "green" bricks = 0 →
       bricks_to_workflow bricks = raise MissingStart).
Proof.
  split_and!; try (vm_compute; done).
  intros bricks Hv Hs. rewrite bricks_to_workflow_spec.
  by rewrite decide_False, decide_True.
Qed.

(** C5. A DuplicateStart failure carries the number of Start nodes that
    were found, and a DuplicateEnd failure the number of End nodes: the
    number is the one of the nodes built from the bricks, it is more than
    one, and it is printed in the message. The bricks
    [(green, x=5), (green, x=50), (red, x=100)] fail with DuplicateStart
    and the count 2. *)
Theorem duplicate_failures_carry_count bricks n :
  (bricks_to_workflow bricks = raise (DuplicateStart n) →
     n = count_type "Start" (nodes (graph_of bricks)) ∧ 1 < n)
  ∧ (bricks_to_workflow bricks = raise (DuplicateEnd n) →
     n = count_type "End" (nodes (graph_of bricks)) ∧ 1 < n)
  ∧ DuplicateStart n
    = ValueError ("Workflow has " +:+ pretty n
                    +:+ " Start nodes, but must have exactly one")
  ∧ DuplicateEnd n
    = ValueError ("Workflow has " +:+ pretty n
                    +:+ " End nodes, but must have exactly one")
  ∧ bricks_to_workflow scenario_C = raise (DuplicateStart 2)
  ∧ DuplicateStart 2
    = ValueError "Workflow has 2 Start nodes, but must have exactly one".
Proof.
  split_and!; try done.
  - rewrite count_Start_graph_of, bricks_to_workflow_spec.
    pose proof (failures_distinct n n) as (_&_&?&_&_&?&_&?&_).
    repeat case_decide; intros Heq; try discriminate Heq;
      apply raise_inj in Heq; try done.
    + apply DuplicateStart_inj in Heq. lia.
    + by apply symmetry, DuplicateStart_not_End in Heq.
  - rewrite count_End_graph_of, bricks_to_workflow_spec.
    pose proof (failures_distinct n n) as (_&_&_&?&_&_&?&_&?&_).
    repeat case_decide; intros Heq; try discriminate Heq;
      apply raise_inj in Heq; try done.
    + by apply DuplicateStart_not_End in Heq.
    + apply DuplicateEnd_inj in Heq. lia.
Qed.

(** C6. The example bricks: green at 100, blue at 250, yellow at 400, blue
    at 550 and red at 700, named b1 to b5. The graph has the nodes Start,
    Action, Decision, Action, End, named b1 to b5 in that order, and the
    edges from each to the next. *)
Theorem example_workflow :
  bricks_to_workflow example_bricks =
    inr (mkWorkflowGraph
           [ mkNode "b1" "Start"; mkNode "b2" "Action"; mkNode "b3" "Decision";
             mkNode "b4" "Action"; mkNode "b5" "End" ]
           [ ("b1", "b2"); ("b2", "b3"); ("b3", "b4"); ("b4", "b5") ]).
Proof. vm_compute. reflexivity. Qed.

(** ** Order of the nodes and shape of the edges *)

Lemma edge_at_lookup l i a b :
  l !! i = Some a → l !! (i + 1) = Some b →
  (edge_at l <$> seq 0 (length l - 1)) !! i = Some (brick_id a, brick_id b).
Proof.
  intros Ha Hb. apply lookup_lt_Some in Hb as Hlt.
  rewrite list_lookup_fmap, lookup_seq_lt by lia.
  simpl. unfold edge_at. by rewrite Ha, Hb.
Qed.

Lemma elem_of_edges l a b :
  (a, b) ∈ edge_at l <$> seq 0 (length l - 1) ↔
  ∃ i, (brick_id <$> l) !! i = Some a ∧ (brick_id <$> l) !! (i + 1) = Some b.
Proof.
  rewrite list_elem_of_fmap. setoid_rewrite elem_of_seq.
  setoid_rewrite list_lookup_fmap. split.
  - intros (i & Heq & _ & Hi).
    destruct (lookup_lt_is_Some_2 l i) as [x Hx]; [lia|].
    destruct (lookup_lt_is_Some_2 l (i + 1)) as [y Hy]; [lia|].
    exists i. unfold edge_at in Heq. rewrite Hx, Hy in Heq |- *.
    by injection Heq as -> ->.
  - intros (i & Ha & Hb). exists i.
    destruct (l !! i) as [x|] eqn:Hx; [|done].
    destruct (l !! (i + 1)) as [y|] eqn:Hy; [|done].
    apply lookup_lt_Some in Hy as Hlt. unfold edge_at. rewrite Hx, Hy.
    injection Ha as <-. injection Hb as <-. split; [done|lia].
Qed.

Section path.
Context (l : list Brick).

Let ids : list string := brick_id <$> l.
Let R (a b : string) : Prop := (a, b) ∈ edge_at l <$> seq 0 (length l - 1).

(** Every node is linked to all the nodes after it. *)
Lemma path_connects i j a b :
  i < j → ids !! i = Some a → ids !! j = Some b → tc R a b.
Proof.
  intros Hij Ha. revert b. induction Hij as [|j Hij IH]; intros b Hb.
  - apply tc_once, elem_of_edges. exists i.
    by rewrite <-Nat.add_1_r in Hb.
  - destruct (lookup_lt_is_Some_2 ids j) as [c Hc].
    { apply lookup_lt_Some in Hb. lia. }
    eapply tc_r; [by apply IH|]. apply elem_of_edges. exists j.
    by rewrite <-Nat.add_1_r in Hb.
Qed.

(** A walk along the edges goes to the right. *)
Lemma path_walk a b :
  NoDup ids → tc R a b →
  ∃ i j, i < j ∧ ids !! i = Some a ∧ ids !! j = Some b.
Proof.
  intros Hnd. induction 1 as [a b (i & Ha & Hb)%elem_of_edges
    |a b c (i & Ha & Hb)%elem_of_edges _ (i' & j & Hlt & Hb' & Hc)].
  - exists i, (i + 1). split_and!; [lia|done..].
  - exists i, j. split_and!; [|done..].
    pose proof (NoDup_lookup _ _ _ _ Hnd Hb Hb'). lia.
Qed.

Lemma path_no_branching a b b' : NoDup ids → R a b → R a b' → b = b'.
Proof.
  intros Hnd (i & Ha & Hb)%elem_of_edges (i' & Ha' & Hb')%elem_of_edges.
  pose proof (NoDup_lookup _ _ _ _ Hnd Ha Ha') as ->. congruence.
Qed.

Lemma path_no_merging a a' b : NoDup ids → R a b → R a' b → a = a'.
Proof.
  intros Hnd (i & Ha & Hb)%elem_of_edges (i' & Ha' & Hb')%elem_of_edges.
  pose proof (NoDup_lookup _ _ _ _ Hnd Hb Hb') as Heq.
  assert (i = i') as -> by lia. congruence.
Qed.

Lemma path_no_cycle a : NoDup ids → ¬ tc R a a.
Proof.
  intros Hnd (i & j & Hlt & Hi & Hj)%path_walk; [|done].
  pose proof (NoDup_lookup _ _ _ _ Hnd Hi Hj). lia.
Qed.
End path.

Lemma NoDup_sorted_ids bricks :
  NoDup (brick_id <$> filter valid_color bricks) →
  NoDup (brick_id <$> sorted_bricks_of bricks).
Proof.
  unfold sorted_bricks_of. by rewrite (sorted_Permutation brick_x).
Qed.

(** With pairwise distinct identifiers the edges are a simple path: no
    identifier has two successors or two predecessors, and no walk comes
    back to where it started. *)
Lemma graph_of_simple_path bricks :
  NoDup (brick_id <$> filter valid_color bricks) →
  (∀ a b b', edge (graph_of bricks) a b → edge (graph_of bricks) a b' → b = b')
  ∧ (∀ a a' b, edge (graph_of bricks) a b → edge (graph_of bricks) a' b → a = a')
  ∧ (∀ a, ¬ tc (edge (graph_of bricks)) a a).
Proof.
  intros Hnd%NoDup_sorted_ids. unfold edge, graph_of. cbn [edges].
  fold (sorted_bricks_of bricks). split_and!.
  - intros a b b'. by apply path_no_branching.
  - intros a a' b. by apply path_no_merging.
  - intros a. by apply path_no_cycle.
Qed.

(** With [nan] among the [x], or an identifier given to two bricks, the
    graph is returned all the same and is not what C2 says. The bricks at
    5, [nan] and 3 make one ascending run for [<], so they are left as they
    are, and 5 is not at most [nan], nor [nan] at most 3. The bricks named
    a, b, a and c give the edges from a to b, from b to a and from a to c:
    a has two successors and lies on a cycle. *)
Lemma nan_or_repeated_id_breaks_path :
  (bricks_to_workflow nan_between = inr (graph_of nan_between)
   ∧ node_id <$> nodes (graph_of nan_between) = ["b1"; "b2"; "b3"]
   ∧ brick_x <$> sorted_bricks_of nan_between = [Finite 5; NaN; Finite 3]
   ∧ ¬ (∀ i b1 b2,
          sorted_bricks_of nan_between !! i = Some b1 →
          sorted_bricks_of nan_between !! (i + 1) = Some b2 →
          fle (brick_x b1) (brick_x b2) = true))
  ∧ (bricks_to_workflow repeated_id = inr (graph_of repeated_id)
     ∧ edges (graph_of repeated_id) = [("a", "b"); ("b", "a"); ("a", "c")]
     ∧ ¬ (∀ a b b',
            edge (graph_of repeated_id) a b →
            edge (graph_of repeated_id) a b' → b = b')
     ∧ ¬ (∀ a, ¬ tc (edge (graph_of repeated_id)) a a)).
Proof.
  split.
  - split_and!; try by vm_compute.
    intros Hle.
    specialize (Hle 0 (mkBrick "b1" "green" (Finite 5) (Finite 0))
      (mkBrick "b2" "blue" NaN (Finite 0)) eq_refl eq_refl).
    discriminate Hle.
  - assert (edges (graph_of repeated_id) = [("a", "b"); ("b", "a"); ("a", "c")])
      as Hedges by (by vm_compute).
    unfold edge. rewrite Hedges. split_and!; [by vm_compute|done|..].
    + intros Hone. specialize (Hone "a" "b" "c").
      rewrite !elem_of_cons in Hone. discriminate Hone; auto.
    + intros Hnone. apply (Hnone "a").
      apply (tc_l _ _ "b"); [|apply tc_once]; rewrite !elem_of_cons; auto.
Qed.

(** C2, as the code has it. When [bricks_to_workflow] returns a graph of
    [n] nodes, the nodes are those of the bricks of a recognised colour, in
    the order [sorted] leaves them in; when no [x] among them is [nan],
    that order is from left to right: the [x] of each is at most the [x] of
    the next. There are [n - 1] edges, and edge [i] goes from the
    identifier of node [i] to that of node [i + 1]; so every node is linked
    to all the nodes after it. When the identifiers of these bricks are
    pairwise distinct, as those of detected bricks are, no identifier has
    two successors or two predecessors and no walk along the edges comes
    back to where it started. *)
Theorem nodes_sorted_edges_form_path bricks g :
  bricks_to_workflow bricks = inr g →
  nodes g = node_of <$> sorted_bricks_of bricks
  ∧ sorted_bricks_of bricks ≡ₚ filter valid_color bricks
  ∧ (Forall x_not_nan (filter valid_color bricks) →
     ∀ i b1 b2,
       sorted_bricks_of bricks !! i = Some b1 →
       sorted_bricks_of bricks !! (i + 1) = Some b2 →
       fle (brick_x b1) (brick_x b2) = true)
  ∧ length (edges g) = length (nodes g) - 1
  ∧ (∀ i n1 n2,
       nodes g !! i = Some n1 → nodes g !! (i + 1) = Some n2 →
       edges g !! i = Some (node_id n1, node_id n2))
  ∧ (∀ i j n1 n2,
       i < j → nodes g !! i = Some n1 → nodes g !! j = Some n2 →
       tc (edge g) (node_id n1) (node_id n2))
  ∧ (NoDup (brick_id <$> filter valid_color bricks) →
       (∀ a b b', edge g a b → edge g a b' → b = b')
       ∧ (∀ a a' b, edge g a b → edge g a' b → a = a')
       ∧ (∀ a, ¬ tc (edge g) a a)).
Proof.
  intros (_ & _ & _ & ->)%bricks_to_workflow_inr.
  unfold edge, graph_of. cbn [nodes edges].
  fold (sorted_bricks_of bricks). set (l := sorted_bricks_of bricks).
  assert (∀ i n, (node_of <$> l) !! i = Some n →
    (brick_id <$> l) !! i = Some (node_id n)) as Hid.
  { intros i n. rewrite !list_lookup_fmap.
    destruct (l !! i); simpl; [|done]. by intros [= <-]. }
  split_and!.
  - done.
  - apply sorted_Permutation.
  - intros Hnan i b1 b2 H1 H2.
    assert (Forall x_not_nan l) as Hl
      by (unfold l, sorted_bricks_of; by rewrite sorted_Permutation).
    rewrite Forall_forall in Hl.
    apply not_after_fle; [by eapply Hl, list_elem_of_lookup_2..|].
    apply (StronglySorted_lookup_lt (not_after (key_lt brick_x)) l i (i + 1));
      [by apply sorted_Sorted|done|done|lia].
  - by rewrite !length_fmap, length_seq.
  - intros i n1 n2 H1 H2. rewrite list_lookup_fmap in H1, H2.
    destruct (l !! i) as [b1|] eqn:Hb1; [|done].
    destruct (l !! (i + 1)) as [b2|] eqn:Hb2; [|done].
    injection H1 as <-. injection H2 as <-. by apply edge_at_lookup.
  - intros i j n1 n2 Hij H1%Hid H2%Hid. by eapply path_connects.
  - apply graph_of_simple_path.
Qed.

Lemma nodes_sorted_edges_form_path_witness :
  bricks_to_workflow example_bricks = inr (graph_of example_bricks)
  ∧ fle (Finite 100) (Finite 250) = true
  ∧ length (edges (graph_of example_bricks))
    = length (nodes (graph_of example_bricks)) - 1
  ∧ ∀ a, ¬ tc (edge (graph_of example_bricks)) a a.
Proof.
  assert (bricks_to_workflow example_bricks = inr (graph_of example_bricks))
    as Hrun by (vm_compute; reflexivity).
  split; [exact Hrun|].
  destruct (nodes_sorted_edges_form_path example_bricks _ Hrun)
    as (_ & _ & Hle & Hlen & _ & _ & Hpath).
  split; [|split; [exact Hlen|]].
  - apply (Hle ltac:(by repeat constructor) 0
      (mkBrick "b1" "green" (Finite 100) (Finite 200))
      (mkBrick "b2" "blue" (Finite 250) (Finite 200))); vm_compute; reflexivity.
  - apply Hpath. apply (bool_decide_unpack _). vm_compute. exact I.
Defined.

(** ** Bricks at the same [x] *)

Lemma filter_sublist_mono {A} (P : A → Prop) `{!∀ a, Decision (P a)} l1 l2 :
  l1 `sublist_of` l2 → filter P l1 `sublist_of` filter P l2.
Proof.
  induction 1 as [|a l1 l2 _ IH|a l1 l2 _ IH]; [done|..];
    rewrite ?filter_cons; destruct (decide (P a)); auto using sublist.
Qed.

Lemma sorted_keeps_ties {A} (key : A → float) (l : list A) a b :
  Forall (λ c, key c ≠ NaN) l →
  [a; b] `sublist_of` l → feq (key a) (key b) = true →
  [a; b] `sublist_of` sorted key l.
Proof.
  intros Hl Hsub Hab. destruct (feq_not_nan _ _ Hab) as [_ Hb].
  apply (filter_sublist_mono (λ c, feq (key c) (key b) = true)) in Hsub.
  rewrite <-(sorted_filter_key key (key b) l) in Hsub by done.
  rewrite filter_cons_True, filter_cons_True in Hsub
    by (done || by apply feq_refl).
  etrans; [exact Hsub|]. apply sublist_filter.
Qed.

(** With [nan] among the [x], bricks at the same [x] may change places. Of
    the bricks at 1, 2, 9, [nan], 5, 4 and 5 the first five make an
    ascending run for [<]; the binary search then puts the last brick
    before the one at 9, and so before the other brick at 5, that stays
    behind the [nan]. *)
Lemma nan_breaks_stability :
  bricks_to_workflow nan_before_ties = inr (graph_of nan_before_ties)
  ∧ node_id <$> nodes (graph_of nan_before_ties)
    = ["b1"; "b2"; "b6"; "b7"; "b3"; "b4"; "b5"]
  ∧ [ mkBrick "b5" "blue" (Finite 5) (Finite 0);
      mkBrick "b7" "blue" (Finite 5) (Finite 0) ]
    `sublist_of` filter valid_color nan_before_ties
  ∧ feq (Finite 5) (Finite 5) = true
  ∧ ¬ [ mkNode "b5" "Action"; mkNode "b7" "Action" ]
      `sublist_of` nodes (graph_of nan_before_ties).
Proof.
  split_and!; try by vm_compute.
  - do 4 apply sublist_cons. apply sublist_skip, sublist_cons, sublist_skip.
    apply sublist_nil.
  - intros Hs. vm_compute in Hs.
    repeat match goal with
    | H : sublist (_ :: _) _ |- _ => inversion H; clear H; subst
    end.
Qed.

(** C10, as the code has it. When no [x] among the bricks of a recognised
    colour is [nan], bricks at the same [x] keep the order they have in the
    input. For every value of [x], the bricks at that [x] come in the
    sorted list as they come among the input bricks of a recognised colour;
    so when a brick stands before another of the same [x] in the input, its
    node stands before the other's in the node list. *)
Theorem equal_x_keeps_input_order bricks g :
  bricks_to_workflow bricks = inr g →
  Forall x_not_nan (filter valid_color bricks) →
  nodes g = node_of <$> sorted_bricks_of bricks
  ∧ (∀ k, filter (λ b, feq (brick_x b) k = true) (sorted_bricks_of bricks)
          = filter (λ b, feq (brick_x b) k = true) (filter valid_color bricks))
  ∧ (∀ b1 b2,
       [b1; b2] `sublist_of` filter valid_color bricks →
       feq (brick_x b1) (brick_x b2) = true →
       [b1; b2] `sublist_of` sorted_bricks_of bricks
       ∧ [node_of b1; node_of b2] `sublist_of` nodes g).
Proof.
  intros (_ & _ & _ & ->)%bricks_to_workflow_inr Hnan.
  unfold graph_of. cbn [nodes]. fold (sorted_bricks_of bricks).
  split_and!; [done|..].
  - intros k. by apply sorted_filter_key.
  - intros b1 b2 Hsub Heq.
    pose proof (sorted_keeps_ties brick_x _ _ _ Hnan Hsub Heq) as Hsorted.
    split; [done|]. by apply (fmap_sublist node_of) in Hsorted.
Qed.

Lemma equal_x_keeps_input_order_witness :
  bricks_to_workflow tied_bricks = inr (graph_of tied_bricks)
  ∧ node_id <$> nodes (graph_of tied_bricks) = ["b2"; "b3"; "b4"; "b1"]
  ∧ filter (λ b, feq (brick_x b) (Finite 20) = true) (sorted_bricks_of tied_bricks)
    = filter (λ b, feq (brick_x b) (Finite 20) = true)
        (filter valid_color tied_bricks).
Proof.
  assert (bricks_to_workflow tied_bricks = inr (graph_of tied_bricks))
    as Hrun by (vm_compute; reflexivity).
  split; [exact Hrun|]. split; [vm_compute; reflexivity|].
  destruct (equal_x_keeps_input_order tied_bricks _ Hrun) as (_ & Hties & _).
  { by repeat constructor. }
  apply Hties.
Defined.

(** ** The red mask *)

Lemma pixel_inRange img lower upper r c :
  pixel (inRange img lower upper) r c
  = (λ px, if in_bounds px lower upper then 255%Z else 0%Z) <$> pixel img r c.
Proof.
  unfold pixel, inRange. rewrite list_lookup_fmap.
  destruct (img !! r) as [row|]; simpl; [|done]. apply list_lookup_fmap.
Qed.

Lemma pixel_bitwise_or m1 m2 r c :
  pixel (bitwise_or m1 m2) r c
  = (a ← pixel m1 r c; b ← pixel m2 r c; Some (Z.lor a b)).
Proof.
  unfold pixel, bitwise_or. rewrite lookup_zip_with.
  destruct (m1 !! r) as [row1|]; simpl; [|done].
  destruct (m2 !! r) as [row2|]; simpl.
  - apply lookup_zip_with.
  - by destruct (row1 !! c).
Qed.

Lemma red_entry range :
  ("red", range) ∈ HSV_RANGES →
  range = BoundsList [ ((0, 50, 50)%Z, (10, 255, 255)%Z);
                       ((170, 50, 50)%Z, (180, 255, 255)%Z) ].
Proof.
  unfold HSV_RANGES. rewrite !elem_of_cons, elem_of_nil.
  intros [?|[?|[?|[?|[]]]]]; by simplify_eq.
Qed.

(** C7. In the red mask, the union of the masks of the two red ranges, a
    pixel of hue 2 and a pixel of hue 178 are selected, saturation and value
    being in the range that all colour classes ask for, from 50 to 255; a
    pixel of hue 90 is not selected, whatever its saturation and value. *)
Theorem red_wraparound img range r c s v :
  ("red", range) ∈ HSV_RANGES →
  (50 ≤ s ≤ 255)%Z → (50 ≤ v ≤ 255)%Z →
  ∃ mask, color_mask img "red" range = inr mask
    ∧ (pixel img r c = Some (2, s, v)%Z → pixel mask r c = Some 255%Z)
    ∧ (pixel img r c = Some (178, s, v)%Z → pixel mask r c = Some 255%Z)
    ∧ (∀ s' v', pixel img r c = Some (90, s', v')%Z →
         pixel mask r c = Some 0%Z).
Proof.
  intros ->%red_entry Hs Hv. eexists. split; [reflexivity|].
  assert ((50 <=? s)%Z = true ∧ (s <=? 255)%Z = true
    ∧ (50 <=? v)%Z = true ∧ (v <=? 255)%Z = true) as (Hs1 & Hs2 & Hv1 & Hv2)
    by (rewrite !Z.leb_le; lia).
  split_and!.
  - intros Hpx. rewrite pixel_bitwise_or, !pixel_inRange, Hpx. simpl.
    by rewrite Hs1, Hs2, Hv1, Hv2.
  - intros Hpx. rewrite pixel_bitwise_or, !pixel_inRange, Hpx. simpl.
    by rewrite Hs1, Hs2, Hv1, Hv2.
  - intros s' v' Hpx. by rewrite pixel_bitwise_or, !pixel_inRange, Hpx.
Qed.

Lemma red_wraparound_witness :
  ∃ mask, color_mask three_hues "red"
            (BoundsList [ ((0, 50, 50)%Z, (10, 255, 255)%Z);
                          ((170, 50, 50)%Z, (180, 255, 255)%Z) ]) = inr mask
    ∧ pixel mask 0 0 = Some 255%Z ∧ pixel mask 0 1 = Some 255%Z
    ∧ pixel mask 0 2 = Some 0%Z.
Proof.
  assert (("red", BoundsList [ ((0, 50, 50)%Z, (10, 255, 255)%Z);
                               ((170, 50, 50)%Z, (180, 255, 255)%Z) ])
          ∈ HSV_RANGES) as Hred
    by (unfold HSV_RANGES; rewrite !elem_of_cons; do 3 right; by left).
  destruct (red_wraparound three_hues _ 0 0 200 180 Hred) as (m0 & Hm0 & H2 & _);
    [lia..|].
  destruct (red_wraparound three_hues _ 0 1 200 180 Hred) as (m1 & Hm1 & _ & H178 & _);
    [lia..|].
  destruct (red_wraparound three_hues _ 0 2 200 180 Hred) as (m2 & Hm2 & _ & _ & H90);
    [lia..|].
  exists m0. split; [exact Hm0|].
  rewrite Hm0 in Hm1, Hm2.
  injection Hm1 as <-. injection Hm2 as <-.
  split_and!; [apply H2|apply H178|apply (H90 200%Z 180%Z)]; reflexivity.
Defined.


(** ** Loops *)

(** What every turn of a loop keeps, the whole loop keeps. *)
Lemma for_each_invariant {A S} (I : S → Prop) (body : S → A → exn + S) l st st' :
  (∀ st a st', a ∈ l → I st → body st a = inr st' → I st') →
  I st → for_each body l st = inr st' → I st'.
Proof.
  revert st. induction l as [|a l IH]; intros st Hbody Hst; simpl.
  - by intros [= <-].
  - destruct (body st a) as [e|st1] eqn:Hstep; [done|]. simpl.
    apply IH.
    + intros st2 b st3 Hb. apply Hbody. by right.
    + eapply Hbody; [left|done..].
Qed.

(** ** The detector *)

Section DetectorProperties.
Context `{Cv2}.

Lemma truediv_nonzero p q :
  feq q (Finite 0) = false → truediv p q = inr (float_div p q).
Proof. intros Hq. unfold truediv. by rewrite Hq. Qed.

Lemma contour_step_skip color_name st c :
  flt (contourArea c) (Finite 100) = true
  ∨ feq (m00 (moments c)) (Finite 0) = true →
  contour_step color_name st c = inr st.
Proof.
  unfold contour_step. intros [Harea|Hm].
  - by rewrite Harea.
  - rewrite Hm. by destruct (flt _ _).
Qed.

Lemma contour_step_accept color_name st c :
  accepted c →
  contour_step color_name st c
  = inr (mkLocals (bricks st ++ [brick_of color_name (brick_counter st) c])
           (brick_counter st + 1)).
Proof.
  intros [Harea Hm]. unfold contour_step.
  by rewrite Harea, Hm, !truediv_nonzero.
Qed.

Lemma accepted_dec c :
  accepted c
  ∨ flt (contourArea c) (Finite 100) = true
  ∨ feq (m00 (moments c)) (Finite 0) = true.
Proof.
  unfold accepted.
  destruct (flt (contourArea c) (Finite 100)); [by auto|].
  destruct (feq (m00 (moments c)) (Finite 0)); by auto.
Qed.

Lemma contour_step_returns color_name st c :
  ∃ st', contour_step color_name st c = inr st'.
Proof.
  destruct (accepted_dec c).
  - rewrite contour_step_accept by done. by eexists.
  - rewrite contour_step_skip by done. by eexists.
Qed.

Lemma contour_step_invariant img_hsv entry contours st c st' :
  entry ∈ HSV_RANGES → color_contours img_hsv entry = inr contours →
  c ∈ contours → detector_invariant img_hsv st →
  contour_step entry.1 st c = inr st' → detector_invariant img_hsv st'.
Proof.
  intros Hentry Hcontours Hc (Hbricks & m & Hcounter & Hids).
  destruct (accepted_dec c) as [Hacc|Hskip].
  - rewrite contour_step_accept by done. intros [= <-].
    split; simpl.
    + apply Forall_app. split; [done|]. apply Forall_singleton.
      by exists entry, contours, c, (brick_counter st).
    + exists (S m). split; [lia|].
      rewrite fmap_app, Hids, seq_S, fmap_app, Hcounter. done.
  - rewrite contour_step_skip by done. intros [= <-].
    split; [done|]. by exists m.
Qed.

Lemma color_step_invariant img_hsv st entry st' :
  entry ∈ HSV_RANGES → detector_invariant img_hsv st →
  color_step img_hsv st entry = inr st' → detector_invariant img_hsv st'.
Proof.
  intros Hentry Hst. unfold color_step.
  destruct (color_contours img_hsv entry) as [e|contours] eqn:Hcs; [done|].
  simpl. apply for_each_invariant; [|done].
  intros st1 c st2 Hc Hst1. by eapply contour_step_invariant.
Qed.

Lemma detect_invariant img bs :
  detect_bricks_from_image img = inr bs →
  ∃ img_hsv st, to_hsv img = inr img_hsv ∧ bs = bricks st
    ∧ detector_invariant img_hsv st.
Proof.
  unfold detect_bricks_from_image.
  destruct (to_hsv img) as [e|img_hsv]; [done|]. cbn [mbind exn_bind].
  destruct (for_each (color_step img_hsv) HSV_RANGES (mkLocals [] 1))
    as [e|st] eqn:Hloop; [done|]. cbn [mbind exn_bind].
  intros [= <-]. exists img_hsv, st. split; [done|]. split; [done|].
  eapply for_each_invariant; [| |exact Hloop].
  - intros st1 entry st2 Hentry Hst1. by apply color_step_invariant.
  - split; [by apply Forall_nil|]. by exists 0.
Qed.

(** The identifiers of the detected bricks are b1, b2 and so on, each used
    once. *)
Lemma detect_ids img bs :
  detect_bricks_from_image img = inr bs →
  brick_id <$> bs = (λ k, "b" +:+ pretty k) <$> seq 1 (length bs)
  ∧ NoDup (brick_id <$> bs).
Proof.
  intros (img_hsv & st & _ & -> & _ & m & _ & Hids)%detect_invariant.
  assert (length (bricks st) = m) as Hlen.
  { by rewrite <-(length_fmap brick_id), Hids, length_fmap, length_seq. }
  rewrite Hlen, Hids. split; [done|].
  apply NoDup_fmap_2, NoDup_seq.
  intros j k [= Heq]. by apply pretty_nat_inj in Heq.
Qed.

(** C8. A contour whose area is under 100, or whose zeroth moment is zero,
    leaves the list of bricks and the counter as they were, and raises
    nothing. The loop body returns for every contour: the two divisions by
    the zeroth moment are reached only when it is not zero. Every brick
    the detector returns was made from a contour whose area is not under
    100 and whose zeroth moment is not zero. *)
Theorem degenerate_regions_skipped :
  (∀ color_name st c,
     flt (contourArea c) (Finite 100) = true
     ∨ feq (m00 (moments c)) (Finite 0) = true →
     contour_step color_name st c = inr st)
  ∧ (∀ color_name st c, ∃ st', contour_step color_name st c = inr st')
  ∧ (∀ img bs,
       detect_bricks_from_image img = inr bs →
       ∃ img_hsv, to_hsv img = inr img_hsv
         ∧ Forall (from_accepted img_hsv) bs).
Proof.
  split_and!.
  - apply contour_step_skip.
  - apply contour_step_returns.
  - intros img bs (img_hsv & st & Hhsv & -> & Hbricks & _)%detect_invariant.
    by exists img_hsv.
Qed.
End DetectorProperties.

Section Pipeline.
Context `{Cv2}.

(** The graphs of detected bricks are simple paths: the detector never uses
    an identifier twice. *)
Lemma analyze_simple_path img g :
  analyze img = inr g →
  (∀ a b b', edge g a b → edge g a b' → b = b')
  ∧ (∀ a a' b, edge g a b → edge g a' b → a = a')
  ∧ (∀ a, ¬ tc (edge g) a a).
Proof.
  unfold analyze.
  destruct (detect_bricks_from_image img) as [e|bs] eqn:Hdetect; [done|].
  simpl. intros (_ & _ & _ & ->)%bricks_to_workflow_inr.
  apply graph_of_simple_path.
  apply detect_ids in Hdetect as [_ Hnd].
  eapply sublist_NoDup; [exact Hnd|]. apply fmap_sublist, sublist_filter.
Qed.
End Pipeline.

(** On the strip of the small instance, with a green, a blue and two red
    pixels, the detector names the bricks b1, b2 and b3 and the graph goes
    from Start to End. *)
Example toy_strip_workflow :
  @analyze Toy.cv2 ("a.png", Toy.strip)
  = inr (mkWorkflowGraph
           [ mkNode "b1" "Start"; mkNode "b2" "Action"; mkNode "b3" "End" ]
           [ ("b1", "b2"); ("b2", "b3") ]).
Proof. vm_compute. reflexivity. Qed.

(** * Further properties *)

(** ** What the assembler reads of its input *)

Lemma same_but_y_key_lt a a' b b' :
  same_but_y a a' → same_but_y b b' →
  key_lt brick_x a b = key_lt brick_x a' b'.
Proof. intros (_ & _ & Ha) (_ & _ & Hb). by apply same_float_flt. Qed.

Lemma sorted_Forall2 l1 l2 :
  Forall2 same_but_y l1 l2 →
  Forall2 same_but_y (sorted brick_x l1) (sorted brick_x l2).
Proof. apply listsort_related, same_but_y_key_lt. Qed.

Lemma Forall2_fmap_eq {A B} (R : A → A → Prop) (f : A → B) l1 l2 :
  (∀ a b, R a b → f a = f b) → Forall2 R l1 l2 → f <$> l1 = f <$> l2.
Proof.
  intros Hf. induction 1 as [|a b t1 t2 Hab _ IH]; [done|].
  rewrite !fmap_cons. f_equal; auto.
Qed.

Lemma edge_at_fmap l : edge_at l <$> seq 0 (length l - 1)
  = zip (brick_id <$> l) (tail (brick_id <$> l)).
Proof.
  apply list_eq. intros i.
  rewrite list_lookup_fmap, lookup_zip_with, lookup_tail, !list_lookup_fmap.
  destruct (decide (i < length l - 1)) as [Hi|Hi].
  - rewrite lookup_seq_lt by done. simpl. unfold edge_at.
    destruct (lookup_lt_is_Some_2 l i) as [a ->]; [lia|].
    destruct (lookup_lt_is_Some_2 l (i + 1)) as [b Hb]; [lia|].
    rewrite Hb. rewrite Nat.add_1_r in Hb. by rewrite Hb.
  - rewrite lookup_seq_ge by lia. simpl.
    destruct (l !! i) as [a|] eqn:Ha; simpl; [|done].
    rewrite (lookup_ge_None_2 l (S i)); [done|].
    apply lookup_lt_Some in Ha. lia.
Qed.

Lemma count_color_Forall2 c l1 l2 :
  Forall2 same_but_y l1 l2 → count_color c l1 = count_color c l2.
Proof.
  unfold count_color. induction 1 as [|a b t1 t2 (_ & Hc & _) _ IH]; [done|].
  rewrite !filter_cons, Hc. destruct (decide (brick_color b = c)); simpl; lia.
Qed.

Lemma graph_of_Forall2 l1 l2 :
  Forall2 same_but_y (filter valid_color l1) (filter valid_color l2) →
  graph_of l1 = graph_of l2.
Proof.
  intros Hl%sorted_Forall2. unfold graph_of.
  rewrite !edge_at_fmap. f_equal.
  - apply (Forall2_fmap_eq same_but_y); [|done].
    intros a b (Hi & Hc & _). unfold node_of. by rewrite Hi, Hc.
  - rewrite (Forall2_fmap_eq same_but_y brick_id _ _ (λ a b H, proj1 H) Hl).
    done.
Qed.

(** X1. The outcome of [bricks_to_workflow] depends only on the
    identifiers, the colours and the [x] of the bricks of a recognised
    colour: [y] is never read, and bricks of any other colour can be added
    or taken away without changing the graph or the failure. *)
Theorem outcome_reads_id_color_x l1 l2 :
  Forall2 same_but_y (filter valid_color l1) (filter valid_color l2) →
  bricks_to_workflow l1 = bricks_to_workflow l2.
Proof.
  intros Hl. rewrite !bricks_to_workflow_spec.
  assert (∀ c, c ∈ ["green"; "blue"; "yellow"; "red"] →
    count_color c l1 = count_color c l2) as Hcount.
  { intros c Hc. rewrite <-(count_color_valid c l1), <-(count_color_valid c l2)
      by done. by apply count_color_Forall2. }
  rewrite (graph_of_Forall2 l1 l2 Hl).
  rewrite !(Hcount "green"), !(Hcount "red") by (rewrite !elem_of_cons; auto).
  apply Forall2_length in Hl.
  destruct (filter valid_color l1), (filter valid_color l2); done.
Qed.

Lemma outcome_reads_id_color_x_witness :
  Forall2 same_but_y (filter valid_color plain_bricks)
    (filter valid_color noisy_bricks)
  ∧ bricks_to_workflow plain_bricks = bricks_to_workflow noisy_bricks.
Proof.
  assert (Forall2 same_but_y (filter valid_color plain_bricks)
    (filter valid_color noisy_bricks)) as Hl.
  { vm_compute. repeat constructor. }
  split; [exact Hl|]. exact (outcome_reads_id_color_x _ _ Hl).
Defined.

(** ** The order of the input *)

Lemma sorted_Permutation_distinct l1 l2 :
  l1 ≡ₚ l2 → distinct_x l1 → Forall x_not_nan l1 →
  sorted brick_x l1 = sorted brick_x l2.
Proof.
  intros Hp Hd Hnan.
  assert (Forall x_not_nan l2) as Hnan2 by (by rewrite <-Hp).
  apply (StronglySorted_unique_strong (not_after (key_lt brick_x)));
    [|by apply sorted_Sorted..|by rewrite !sorted_Permutation].
  intros a b Ha Hb Hab Hba.
  rewrite sorted_Permutation in Ha. rewrite sorted_Permutation, <-Hp in Hb.
  apply list_elem_of_lookup in Ha as Hi. destruct Hi as [i Hi].
  apply list_elem_of_lookup in Hb as Hj. destruct Hj as [j Hj].
  rewrite Forall_forall in Hnan.
  assert (i = j) as ->; [|congruence].
  apply (Hd i j a b Hi Hj).
  apply incomparable_feq; [by apply Hnan..|exact Hba|exact Hab].
Qed.

(** X2. When no two bricks of a recognised colour stand at the same [x]
    and none of them at [nan], the order in which the bricks are given
    plays no part: every rearrangement of the input gives the same graph or
    the same failure. *)
Theorem input_order_irrelevant l1 l2 :
  l1 ≡ₚ l2 → distinct_x (filter valid_color l1) →
  Forall x_not_nan (filter valid_color l1) →
  bricks_to_workflow l1 = bricks_to_workflow l2.
Proof.
  intros Hp Hd Hnan. rewrite !bricks_to_workflow_spec.
  assert (filter valid_color l1 ≡ₚ filter valid_color l2) as Hv by (by rewrite Hp).
  assert (graph_of l1 = graph_of l2) as ->.
  { unfold graph_of. by rewrite (sorted_Permutation_distinct _ _ Hv Hd Hnan). }
  assert (∀ c, count_color c l1 = count_color c l2) as Hcount.
  { intros c. unfold count_color. by rewrite Hp. }
  rewrite !Hcount.
  destruct (filter valid_color l1) eqn:H1, (filter valid_color l2) eqn:H2;
    try done.
  - by apply Permutation_nil_l in Hv.
  - by apply Permutation_nil_r in Hv.
Qed.

Lemma input_order_irrelevant_witness :
  bricks_to_workflow example_bricks = bricks_to_workflow shuffled_bricks.
Proof.
  apply input_order_irrelevant.
  - symmetry. apply reverse_Permutation.
  - intros i j a b Hi Hj Hx.
    destruct i as [|[|[|[|[|i]]]]]; destruct j as [|[|[|[|[|j]]]]];
      vm_compute in Hi, Hj; simplify_eq; try done; by vm_compute in Hx.
  - by repeat constructor.
Defined.

(** ** The size of the graph *)

Lemma COLOR_TO_TYPE_Action c : COLOR_TO_TYPE !! c = Some "Action" ↔ c = "blue".
Proof.
  unfold COLOR_TO_TYPE. rewrite !lookup_insert_Some, lookup_empty. split.
  - intros [[_ ?]|[_ [[? _]|[_ [[_ ?]|[_ [[_ ?]|[_ ?]]]]]]]]; done.
  - intros ->. right. split; [done|]. by left.
Qed.

Lemma COLOR_TO_TYPE_Decision c :
  COLOR_TO_TYPE !! c = Some "Decision" ↔ c = "yellow".
Proof.
  unfold COLOR_TO_TYPE. rewrite !lookup_insert_Some, lookup_empty. split.
  - intros [[_ ?]|[_ [[_ ?]|[_ [[? _]|[_ [[_ ?]|[_ ?]]]]]]]]; done.
  - intros ->. do 2 (right; split; [done|]). by left.
Qed.

Lemma node_of_Action b : node_type (node_of b) = "Action" ↔ brick_color b = "blue".
Proof.
  rewrite <-COLOR_TO_TYPE_Action. simpl.
  destruct (COLOR_TO_TYPE !! brick_color b); simpl; naive_solver.
Qed.

Lemma node_of_Decision b :
  node_type (node_of b) = "Decision" ↔ brick_color b = "yellow".
Proof.
  rewrite <-COLOR_TO_TYPE_Decision. simpl.
  destruct (COLOR_TO_TYPE !! brick_color b); simpl; naive_solver.
Qed.

Lemma node_of_kind b :
  valid_color b →
  node_type (node_of b) ∈ ["Start"; "Action"; "Decision"; "End"].
Proof.
  rewrite valid_color_iff, !elem_of_cons, elem_of_nil.
  rewrite node_of_Start, node_of_Action, node_of_Decision, node_of_End.
  tauto.
Qed.

Lemma length_by_color l :
  Forall valid_color l →
  length l = (count_color "green" l + count_color "blue" l
              + count_color "yellow" l + count_color "red" l)%nat.
Proof.
  unfold count_color. induction 1 as [|b l Hb _ IH]; [done|].
  rewrite !filter_cons. simpl. rewrite IH.
  apply valid_color_iff in Hb. rewrite !elem_of_cons, elem_of_nil in Hb.
  destruct Hb as [Hb|[Hb|[Hb|[Hb|[]]]]]; rewrite Hb;
    repeat case_decide; simplify_eq; simpl; lia.
Qed.

(** X3. A graph that [bricks_to_workflow] returns has one node for every
    brick of a recognised colour, under the brick's identifier, and nothing
    else. It has at least two nodes and at least one edge; every node is
    of type Start, Action, Decision or End, and all but two of them are
    Action or Decision nodes. *)
Theorem graph_covers_recognised_bricks bricks g :
  bricks_to_workflow bricks = inr g →
  node_id <$> nodes g ≡ₚ brick_id <$> filter valid_color bricks
  ∧ length (nodes g) = length (filter valid_color bricks)
  ∧ (2 ≤ length (nodes g))%nat
  ∧ edges g ≠ []
  ∧ Forall (λ n, node_type n ∈ ["Start"; "Action"; "Decision"; "End"]) (nodes g)
  ∧ (count_type "Action" (nodes g) + count_type "Decision" (nodes g)
     = length (nodes g) - 2)%nat.
Proof.
  intros (_ & Hs & He & ->)%bricks_to_workflow_inr.
  pose proof (Forall_valid_sorted bricks) as Hvalid.
  pose proof (length_by_color _ Hvalid) as Hlen.
  assert (∀ c, c ∈ ["green"; "blue"; "yellow"; "red"] →
    count_color c (sorted brick_x (filter valid_color bricks))
    = count_color c bricks) as Hcount.
  { intros c Hc. by rewrite count_color_sorted, count_color_valid. }
  rewrite !Hcount, Hs, He in Hlen by (rewrite !elem_of_cons; auto).
  unfold graph_of, count_type. cbn [nodes edges].
  rewrite length_sorted in Hlen. rewrite length_fmap, length_sorted.
  rewrite (length_filter_nodes _ "blue") by apply node_of_Action.
  rewrite (length_filter_nodes _ "yellow") by apply node_of_Decision.
  rewrite !Hcount by (rewrite !elem_of_cons; auto).
  split_and!; [|done|lia| |by eapply Forall_fmap, Forall_impl, node_of_kind|lia].
  - rewrite <-list_fmap_compose. by rewrite (sorted_Permutation brick_x).
  - intros Hnil%(f_equal length).
    rewrite length_fmap, length_seq in Hnil. simpl in Hnil. lia.
Qed.

Lemma graph_covers_recognised_bricks_witness :
  ∃ g, bricks_to_workflow noisy_bricks = inr g
    ∧ node_id <$> nodes g ≡ₚ brick_id <$> filter valid_color noisy_bricks
    ∧ length (nodes g) = 2%nat.
Proof.
  assert (bricks_to_workflow noisy_bricks = inr (graph_of noisy_bricks))
    as Hrun by (vm_compute; reflexivity).
  exists (graph_of noisy_bricks). split; [exact Hrun|].
  destruct (graph_covers_recognised_bricks _ _ Hrun) as (Hids & Hlen & _).
  split; [exact Hids|]. rewrite Hlen. vm_compute. reflexivity.
Defined.

(** ** Which failure is raised *)

(** X4. Which failure [bricks_to_workflow] raises is read off in this order:
    no brick of a recognised colour, then the number of green bricks, then
    the number of red bricks. A failure about End is raised only for an
    input with exactly one green brick: a wrong number of green bricks
    hides whatever is wrong with the red ones. *)
Theorem failure_kinds bricks :
  (bricks_to_workflow bricks = raise MissingStart ↔
     filter valid_color bricks ≠ [] ∧ count_color "green" bricks = 0%nat)
  ∧ (∀ n, bricks_to_workflow bricks = raise (DuplicateStart n) ↔
       n = count_color "green" bricks ∧ (1 < n)%nat)
  ∧ (bricks_to_workflow bricks = raise MissingEnd ↔
       count_color "green" bricks = 1%nat ∧ count_color "red" bricks = 0%nat)
  ∧ (∀ n, bricks_to_workflow bricks = raise (DuplicateEnd n) ↔
       count_color "green" bricks = 1%nat ∧ n = count_color "red" bricks
       ∧ (1 < n)%nat).
Proof.
  assert (count_color "green" bricks ≠ 0%nat → filter valid_color bricks ≠ [])
    as Hgreen.
  { apply count_color_pos_valid. rewrite !elem_of_cons. auto. }
  split_and!; [|intros n| |intros n];
    pose proof (failures_distinct (count_color "green" bricks)
      (count_color "red" bricks)) as (?&?&?&?&?&?&?&?&?&?);
    pose proof (failures_distinct (count_color "red" bricks)
      (count_color "green" bricks)) as (_&_&?&?&_&?&?&?&?&?);
    pose proof (failures_distinct n n) as (_&_&?&?&_&?&?&?&?&?) || idtac;
    rewrite bricks_to_workflow_spec; repeat case_decide; split.
  all: try (intros Heq; discriminate Heq).
  all: try (intros Heq; apply raise_inj in Heq; exfalso; congruence).
  all: try (intros Heq%raise_inj%DuplicateStart_inj; lia).
  all: try (intros Heq%raise_inj%DuplicateEnd_inj; lia).
  all: try (intros Heq%raise_inj%symmetry%DuplicateStart_not_End; done).
  all: try (intros Heq%raise_inj%DuplicateStart_not_End; done).
  all: try (intros _; split_and!; done || lia).
  all: try (intros Hc; destruct_and?; exfalso; (lia || tauto)).
  all: try (intros Hc; destruct_and?; subst; done).
  all: intros Hc; destruct_and?; exfalso; apply Hgreen; [lia|done].
Qed.

Lemma length_filter_fmap {A B} (f : A → B) (P : B → Prop) (Q : A → Prop)
    `{!∀ b, Decision (P b)} `{!∀ a, Decision (Q a)} l :
  (∀ a, Q a ↔ P (f a)) →
  length (filter Q l) = length (filter P (f <$> l)).
Proof.
  intros HQ. induction l as [|a l IH]; [done|].
  rewrite fmap_cons, !filter_cons.
  destruct (decide (Q a)) as [Ha|Ha], (decide (P (f a))) as [Hb|Hb];
    simpl; rewrite ?IH; try done; by apply HQ in Ha || apply HQ in Hb.
Qed.

Lemma count_color_colours c l1 l2 :
  brick_color <$> l1 ≡ₚ brick_color <$> l2 →
  count_color c l1 = count_color c l2.
Proof.
  intros Hp. unfold count_color.
  rewrite !(length_filter_fmap brick_color (λ c', c' = c)
    (λ b, brick_color b = c)) by done.
  by rewrite Hp.
Qed.

Lemma no_valid_colours l1 l2 :
  brick_color <$> l1 ≡ₚ brick_color <$> l2 →
  filter valid_color l1 = [] → filter valid_color l2 = [].
Proof.
  intros Hp H1. apply length_zero_iff_nil. apply (f_equal length) in H1.
  rewrite (length_filter_fmap brick_color
    (λ c, is_Some (COLOR_TO_TYPE !! c)) valid_color) in H1 |- * by done.
  by rewrite <-Hp.
Qed.

(** X5. Whether [bricks_to_workflow] succeeds, and with which failure it
    fails, is decided by the colours of the bricks alone, counted with
    repetition: identifiers and positions play no part in the validation,
    and identifiers are not asked to be distinct. *)
Theorem validation_reads_colours l1 l2 :
  brick_color <$> l1 ≡ₚ brick_color <$> l2 →
  (∀ e, bricks_to_workflow l1 = raise e ↔ bricks_to_workflow l2 = raise e)
  ∧ ((∃ g, bricks_to_workflow l1 = inr g) ↔ ∃ g, bricks_to_workflow l2 = inr g).
Proof.
  intros Hp. rewrite !bricks_to_workflow_spec.
  rewrite !(count_color_colours _ l1 l2 Hp).
  pose proof (no_valid_colours l1 l2 Hp).
  pose proof (no_valid_colours l2 l1 (symmetry Hp)).
  split; [intros e|]; repeat case_decide; try tauto; try done.
  split; intros [g Hg]; eauto.
Qed.

Lemma validation_reads_colours_witness :
  bricks_to_workflow two_by_colour = raise (DuplicateEnd 2)
  ∧ bricks_to_workflow two_by_colour' = raise (DuplicateEnd 2).
Proof.
  assert (bricks_to_workflow two_by_colour = raise (DuplicateEnd 2)) as Hrun
    by (vm_compute; reflexivity).
  split; [exact Hrun|].
  refine (proj1 (proj1 (validation_reads_colours two_by_colour two_by_colour' _) _) Hrun).
  vm_compute. apply perm_swap.
Defined.

(** ** What the detector returns *)

Section DetectedBricksProperties.
Context `{Cv2}.

Lemma numbered_cons k p l :
  numbered k (p :: l) = brick_of p.1 k p.2 :: numbered (S k) l.
Proof.
  unfold numbered. rewrite imap_cons, Nat.add_0_r. f_equal.
  apply imap_ext. intros i q _. simpl. f_equal. lia.
Qed.

Lemma numbered_app k l1 l2 :
  numbered k (l1 ++ l2)
  = (numbered k l1 ++ numbered (k + length l1) l2)%list.
Proof.
  revert k. induction l1 as [|p l1 IH]; intros k.
  - simpl. by rewrite Nat.add_0_r.
  - rewrite <-app_comm_cons, !numbered_cons, IH, <-app_comm_cons.
    cbn [length]. do 3 f_equal. lia.
Qed.

Lemma length_numbered k l : length (numbered k l) = length l.
Proof. apply length_imap. Qed.

Lemma contour_loop color_name contours st :
  for_each (contour_step color_name) contours st
  = inr (mkLocals
      (bricks st ++ numbered (brick_counter st)
         ((λ c, (color_name, c)) <$> filter accepted contours))%list
      (brick_counter st + length (filter accepted contours))).
Proof.
  revert st. induction contours as [|c contours IH]; intros [bs k].
  - simpl. by rewrite app_nil_r, Nat.add_0_r.
  - cbn [for_each]. rewrite filter_cons.
    destruct (decide (accepted c)) as [Hc|Hc].
    + rewrite contour_step_accept by done. cbn [mbind exn_bind].
      rewrite IH. cbn [bricks brick_counter].
      rewrite fmap_cons, numbered_cons, <-app_assoc. cbn [length fst snd].
      do 2 f_equal; [|lia]. do 3 f_equal. lia.
    + rewrite contour_step_skip; [cbn [mbind exn_bind]; by rewrite IH|].
      destruct (accepted_dec c) as [?|?]; done.
Qed.

(** A turn of the loop over the colours: it fails as the library calls
    do, and otherwise adds the bricks of the accepted contours. *)
Lemma color_step_closed img_hsv st entry :
  color_step img_hsv st entry
  = match color_contours img_hsv entry with
    | inl e => inl e
    | inr _ =>
        inr (mkLocals
          (bricks st ++ numbered (brick_counter st) (accepted_of img_hsv entry))%list
          (brick_counter st + length (accepted_of img_hsv entry)))
    end.
Proof.
  unfold color_step, accepted_of.
  destruct (color_contours img_hsv entry) as [e|contours]; [done|].
  cbn [mbind exn_bind]. by rewrite contour_loop, length_fmap.
Qed.

Lemma color_loop img_hsv entries st st' :
  for_each (color_step img_hsv) entries st = inr st' →
  st' = mkLocals
      (bricks st ++ numbered (brick_counter st)
         (entries ≫= accepted_of img_hsv))%list
      (brick_counter st + length (entries ≫= accepted_of img_hsv)).
Proof.
  revert st. induction entries as [|entry entries IH]; intros [bs k].
  - simpl. rewrite app_nil_r, Nat.add_0_r. by intros [= <-].
  - cbn [for_each]. rewrite bind_cons, color_step_closed.
    destruct (color_contours img_hsv entry) as [e|contours]; [done|].
    cbn [mbind exn_bind]. intros ->%IH. cbn [bricks brick_counter].
    rewrite numbered_app, !length_app, <-!app_assoc.
    f_equal. lia.
Qed.

Lemma detect_closed img bs :
  detect_bricks_from_image img = inr bs →
  ∃ img_hsv, to_hsv img = inr img_hsv
    ∧ bs = numbered 1 (accepted_contours img_hsv).
Proof.
  unfold detect_bricks_from_image.
  destruct (to_hsv img) as [e|img_hsv]; [done|]. cbn [mbind exn_bind].
  destruct (for_each (color_step img_hsv) HSV_RANGES (mkLocals [] 1))
    as [e|st] eqn:Hloop; [done|]. cbn [mbind exn_bind].
  intros [= <-]. exists img_hsv. split; [done|].
  by rewrite (color_loop _ _ _ _ Hloop).
Qed.
End DetectedBricksProperties.

Section DetectorOutput.
Context `{Cv2}.

Lemma numbered_lookup k l i p :
  l !! i = Some p → numbered k l !! i = Some (brick_of p.1 (k + i) p.2).
Proof. intros Hp. unfold numbered. by rewrite list_lookup_imap, Hp. Qed.

Lemma numbered_colours k l : brick_color <$> numbered k l = l.*1.
Proof.
  revert k. induction l as [|p l IH]; intros k; [done|].
  rewrite numbered_cons, !fmap_cons, IH. done.
Qed.

Lemma accepted_of_colours img_hsv entry :
  (accepted_of img_hsv entry).*1
  = replicate (length (accepted_of img_hsv entry)) entry.1.
Proof.
  unfold accepted_of. destruct (color_contours img_hsv entry); [done|].
  induction (filter accepted l) as [|c cs IH]; [done|].
  rewrite !fmap_cons. simpl. by rewrite IH.
Qed.

Lemma accepted_contours_colours img_hsv :
  ∃ g b y r,
    (accepted_contours img_hsv).*1
    = (replicate g "green" ++ replicate b "blue" ++ replicate y "yellow"
       ++ replicate r "red")%list.
Proof.
  unfold accepted_contours, HSV_RANGES.
  rewrite !bind_cons. cbn [mbind list_bind]. rewrite app_nil_r, !fmap_app.
  rewrite !accepted_of_colours. by eexists _, _, _, _.
Qed.

Lemma replicate_valid n c :
  c ∈ ["green"; "blue"; "yellow"; "red"] →
  Forall (λ c', is_Some (COLOR_TO_TYPE !! c')) (replicate n c).
Proof.
  intros Hc. apply Forall_replicate.
  by apply (valid_color_iff (mkBrick "" c NaN NaN)).
Qed.

Lemma detected_valid img bs :
  detect_bricks_from_image img = inr bs → Forall valid_color bs.
Proof.
  intros (img_hsv & _ & ->)%detect_closed.
  destruct (accepted_contours_colours img_hsv) as (g & b & y & r & Hc).
  change valid_color with ((λ c, is_Some (COLOR_TO_TYPE !! c)) ∘ brick_color).
  apply Forall_fmap. rewrite numbered_colours, Hc.
  rewrite !Forall_app.
  split_and!; apply replicate_valid; rewrite !elem_of_cons; auto.
Qed.

Lemma filter_all {A} (P : A → Prop) `{!∀ a, Decision (P a)} l :
  Forall P l → filter P l = l.
Proof.
  induction 1 as [|a l Ha _ IH]; [done|]. by rewrite filter_cons_True, IH.
Qed.

(** X6. When the detector returns, it returns one brick for every accepted
    contour, in the order of the colour table and within a colour in the
    order the contours are found. The brick of the contour at place [i] is
    named b followed by [i + 1], has the colour of the table entry the
    contour was found under, and lies where the machine's division puts
    [m10 / m00] and [m01 / m00]. *)
Theorem detector_returns_accepted_contours img bs :
  detect_bricks_from_image img = inr bs →
  ∃ img_hsv, to_hsv img = inr img_hsv
    ∧ length bs = length (accepted_contours img_hsv)
    ∧ ∀ i color_name c,
        accepted_contours img_hsv !! i = Some (color_name, c) →
        bs !! i = Some (mkBrick ("b" +:+ pretty (S i)) color_name
                          (float_div (m10 (moments c)) (m00 (moments c)))
                          (float_div (m01 (moments c)) (m00 (moments c)))).
Proof.
  intros (img_hsv & Hhsv & ->)%detect_closed. exists img_hsv.
  split; [done|]. split; [apply length_numbered|].
  intros i color_name c Hi. by rewrite (numbered_lookup _ _ _ _ Hi).
Qed.

(** X7. The detected bricks come colour by colour: first the green ones,
    then the blue, the yellow and the red ones. No other colour is ever
    given to a brick, so [bricks_to_workflow] keeps every detected brick. *)
Theorem detected_colours_in_table_order img bs :
  detect_bricks_from_image img = inr bs →
  (∃ g b y r,
     brick_color <$> bs
     = (replicate g "green" ++ replicate b "blue" ++ replicate y "yellow"
        ++ replicate r "red")%list)
  ∧ filter valid_color bs = bs.
Proof.
  intros Hbs. split; [|by eapply filter_all, detected_valid].
  apply detect_closed in Hbs as (img_hsv & _ & ->).
  rewrite numbered_colours. apply accepted_contours_colours.
Qed.
End DetectorOutput.

Lemma detector_returns_accepted_contours_witness :
  ∃ bs, @detect_bricks_from_image Toy.cv2 ("a.png", Toy.strip) = inr bs
    ∧ bs !! 2 = Some (mkBrick "b3" "red" (Finite (5 # 2)) (Finite 0)).
Proof.
  eexists. split; [vm_compute; reflexivity|].
  destruct (@detector_returns_accepted_contours Toy.cv2 ("a.png", Toy.strip) _
    ltac:(vm_compute; reflexivity)) as (img_hsv & Hhsv & _ & Hbricks).
  vm_compute in Hhsv. injection Hhsv as <-.
  rewrite (Hbricks 2 "red"
    (mkMoments (Finite 200) (Finite 500) (Finite 0))) by (vm_compute; reflexivity).
  vm_compute. reflexivity.
Defined.

Lemma detected_colours_in_table_order_witness :
  ∃ bs, @detect_bricks_from_image Toy.cv2 ("a.png", Toy.strip) = inr bs
    ∧ filter valid_color bs = bs.
Proof.
  eexists. split; [vm_compute; reflexivity|].
  refine (proj2 (@detected_colours_in_table_order Toy.cv2
    ("a.png", Toy.strip) _ _)).
  vm_compute. reflexivity.
Defined.

(** ** The masks of the colour classes *)

Lemma lor_mask (a b : bool) :
  Z.lor (if a then 255 else 0) (if b then 255 else 0)
  = (if a || b then 255 else 0)%Z.
Proof. by destruct a, b. Qed.

Lemma pixel_color_mask img entry r c :
  entry ∈ HSV_RANGES →
  ∃ mask, color_mask img entry.1 entry.2 = inr mask
    ∧ pixel mask r c
      = (λ px, if in_range entry.2 px then 255%Z else 0%Z) <$> pixel img r c.
Proof.
  unfold HSV_RANGES. rewrite !elem_of_cons, elem_of_nil.
  intros [->|[->|[->|[->|[]]]]]; (eexists; split; [reflexivity|]);
    try apply pixel_inRange.
  rewrite pixel_bitwise_or, !pixel_inRange.
  destruct (pixel img r c) as [px|]; [|done]. simpl.
  by rewrite lor_mask, orb_false_r.
Qed.

Lemma in_bounds_iff h s v lh ls lv uh us uv :
  in_bounds (h, s, v) (lh, ls, lv) (uh, us, uv) = true ↔
  (lh ≤ h ≤ uh ∧ ls ≤ s ≤ us ∧ lv ≤ v ≤ uv)%Z.
Proof.
  unfold in_bounds. rewrite !andb_true_iff, !Z.leb_le. lia.
Qed.

(** Which pixels each entry of the table takes. *)
Lemma in_range_table entry h s v :
  entry ∈ HSV_RANGES →
  in_range entry.2 (h, s, v) = true ↔
    (entry.1 = "green" ∧ 35 ≤ h ≤ 85 ∧ 50 ≤ s ≤ 255 ∧ 50 ≤ v ≤ 255
     ∨ entry.1 = "blue" ∧ 90 ≤ h ≤ 130 ∧ 50 ≤ s ≤ 255 ∧ 50 ≤ v ≤ 255
     ∨ entry.1 = "yellow" ∧ 20 ≤ h ≤ 35 ∧ 100 ≤ s ≤ 255 ∧ 100 ≤ v ≤ 255
     ∨ entry.1 = "red" ∧ (0 ≤ h ≤ 10 ∨ 170 ≤ h ≤ 180)
       ∧ 50 ≤ s ≤ 255 ∧ 50 ≤ v ≤ 255)%Z.
Proof.
  unfold HSV_RANGES. rewrite !elem_of_cons, elem_of_nil.
  intros [->|[->|[->|[->|[]]]]]; cbn [in_range existsb fst snd];
    rewrite ?orb_true_iff, ?orb_false_r, !in_bounds_iff; split.
  all: try (intros ?; left; split; [done|lia]).
  all: try (intros ?; right; left; split; [done|lia]).
  all: try (intros ?; right; right; left; split; [done|lia]).
  all: try (intros ?; right; right; right; split; [done|lia]).
  all: intros [[Hn ?]|[[Hn ?]|[[Hn ?]|[Hn ?]]]]; try discriminate Hn; lia.
Qed.

Lemma pixel_color_mask_of img entry mask r c :
  entry ∈ HSV_RANGES → color_mask img entry.1 entry.2 = inr mask →
  pixel mask r c
  = (λ px, if in_range entry.2 px then 255%Z else 0%Z) <$> pixel img r c.
Proof.
  intros Hentry Hmask.
  destruct (pixel_color_mask img entry r c Hentry) as (mask' & Hmask' & Hpx).
  congruence.
Qed.

Lemma selected_in_range img entry mask r c :
  entry ∈ HSV_RANGES → color_mask img entry.1 entry.2 = inr mask →
  pixel mask r c = Some 255%Z →
  ∃ h s v, pixel img r c = Some (h, s, v) ∧ in_range entry.2 (h, s, v) = true.
Proof.
  intros Hentry Hmask. rewrite (pixel_color_mask_of _ _ _ _ _ Hentry Hmask).
  destruct (pixel img r c) as [[[h s] v]|]; simpl; [|done].
  destruct (in_range entry.2 (h, s, v)) eqn:Hr; intros Heq; [|discriminate Heq].
  by exists h, s, v.
Qed.

(** X8. The mask of each colour class of the table has the shape of the
    image and holds only 0 and 255; it holds 255 exactly at the pixels
    whose hue, saturation and value all lie within the bounds of the class,
    both ends included (for red, within one of its two pairs of bounds). *)
Theorem mask_of_colour_class img entry :
  entry ∈ HSV_RANGES →
  ∃ mask, color_mask img entry.1 entry.2 = inr mask
    ∧ (∀ r c, is_Some (pixel mask r c) ↔ is_Some (pixel img r c))
    ∧ (∀ r c z, pixel mask r c = Some z → z = 0%Z ∨ z = 255%Z)
    ∧ (∀ r c px, pixel img r c = Some px →
         (pixel mask r c = Some 255%Z ↔ in_range entry.2 px = true)).
Proof.
  intros Hentry.
  destruct (pixel_color_mask img entry 0 0 Hentry) as (mask & Hmask & _).
  exists mask. split; [done|].
  pose proof (pixel_color_mask_of img entry mask) as Hpx.
  split_and!.
  - intros r c. rewrite Hpx by done. apply fmap_is_Some.
  - intros r c z. rewrite Hpx by done.
    destruct (pixel img r c) as [px|]; [|done]. simpl.
    destruct (in_range entry.2 px); intros [= <-]; auto.
  - intros r c px Hr. rewrite Hpx, Hr by done. simpl.
    by destruct (in_range entry.2 px).
Qed.

Lemma mask_of_colour_class_witness :
  ∃ mask, color_mask odd_pixels "yellow"
            (Bounds (20, 100, 100)%Z (35, 255, 255)%Z) = inr mask
    ∧ (pixel mask 0 2 = Some 255%Z ↔
       in_range (Bounds (20, 100, 100)%Z (35, 255, 255)%Z) (35, 150, 150)%Z
       = true).
Proof.
  destruct (mask_of_colour_class odd_pixels
    ("yellow", Bounds (20, 100, 100)%Z (35, 255, 255)%Z))
    as (mask & Hmask & _ & _ & Hsel).
  { unfold HSV_RANGES. rewrite !elem_of_cons. do 2 right. by left. }
  exists mask. split; [exact Hmask|]. by apply Hsel.
Defined.

(** X9. Two colour classes take the same pixel only where yellow ends and
    green begins: the pixel has hue 35, and saturation and value from 100 to
    255. Everywhere else a pixel is in the mask of at most one class. *)
Theorem classes_overlap_only_at_hue_35 img e1 e2 m1 m2 r c :
  e1 ∈ HSV_RANGES → e2 ∈ HSV_RANGES → e1.1 ≠ e2.1 →
  color_mask img e1.1 e1.2 = inr m1 → color_mask img e2.1 e2.2 = inr m2 →
  pixel m1 r c = Some 255%Z → pixel m2 r c = Some 255%Z →
  ∃ s v, pixel img r c = Some (35, s, v)%Z
    ∧ (100 ≤ s ≤ 255)%Z ∧ (100 ≤ v ≤ 255)%Z
    ∧ (e1.1 = "green" ∧ e2.1 = "yellow" ∨ e1.1 = "yellow" ∧ e2.1 = "green").
Proof.
  intros H1 H2 Hne Hm1 Hm2 Hp1 Hp2.
  destruct (selected_in_range _ _ _ _ _ H1 Hm1 Hp1) as (h & s & v & Hpx & Hr1).
  destruct (selected_in_range _ _ _ _ _ H2 Hm2 Hp2) as (h' & s' & v' & Hpx' & Hr2).
  rewrite Hpx in Hpx'. injection Hpx' as <- <- <-.
  apply in_range_table in Hr1; [|done]. apply in_range_table in Hr2; [|done].
  assert (h = 35 ∧ 100 ≤ s ≤ 255 ∧ 100 ≤ v ≤ 255
    ∧ (e1.1 = "green" ∧ e2.1 = "yellow" ∨ e1.1 = "yellow" ∧ e2.1 = "green"))%Z
    as (-> & ? & ? & ?); [|by exists s, v].
  destruct Hr1 as [[E1 ?]|[[E1 ?]|[[E1 ?]|[E1 ?]]]],
    Hr2 as [[E2 ?]|[[E2 ?]|[[E2 ?]|[E2 ?]]]];
    try (exfalso; congruence); try (exfalso; lia);
    (split; [lia|]; split; [lia|]; split; [lia|]; tauto).
Qed.

Lemma classes_overlap_only_at_hue_35_witness :
  pixel (inRange odd_pixels (35, 50, 50)%Z (85, 255, 255)%Z) 0 2 = Some 255%Z
  ∧ pixel (inRange odd_pixels (20, 100, 100)%Z (35, 255, 255)%Z) 0 2
    = Some 255%Z
  ∧ ∃ s v, pixel odd_pixels 0 2 = Some (35, s, v)%Z.
Proof.
  split; [reflexivity|]. split; [reflexivity|].
  destruct (classes_overlap_only_at_hue_35 odd_pixels
    ("green", Bounds (35, 50, 50)%Z (85, 255, 255)%Z)
    ("yellow", Bounds (20, 100, 100)%Z (35, 255, 255)%Z)
    (inRange odd_pixels (35, 50, 50)%Z (85, 255, 255)%Z)
    (inRange odd_pixels (20, 100, 100)%Z (35, 255, 255)%Z) 0 2)
    as (s & v & Hpx & _); try reflexivity; try done.
  - unfold HSV_RANGES. rewrite !elem_of_cons. by left.
  - unfold HSV_RANGES. rewrite !elem_of_cons. do 2 right. by left.
  - by exists s, v.
Defined.

(** X10. A pixel whose saturation or value is under 50, or whose hue lies
    strictly between 10 and 20, between 85 and 90 or between 130 and 170, is
    in the mask of no colour class. *)
Theorem dull_pixels_in_no_mask img entry mask r c h s v :
  entry ∈ HSV_RANGES → color_mask img entry.1 entry.2 = inr mask →
  pixel img r c = Some (h, s, v) →
  (s < 50 ∨ v < 50 ∨ 10 < h < 20 ∨ 85 < h < 90 ∨ 130 < h < 170)%Z →
  pixel mask r c = Some 0%Z.
Proof.
  intros Hentry Hmask Hpx Hdull.
  rewrite (pixel_color_mask_of _ _ _ _ _ Hentry Hmask), Hpx. simpl.
  destruct (in_range entry.2 (h, s, v)) eqn:Hr; [|done].
  apply in_range_table in Hr; [|done]. exfalso. lia.
Qed.

Lemma dull_pixels_in_no_mask_witness :
  ∃ mask, color_mask odd_pixels "green"
            (Bounds (35, 50, 50)%Z (85, 255, 255)%Z) = inr mask
    ∧ pixel mask 0 0 = Some 0%Z ∧ pixel mask 0 1 = Some 0%Z.
Proof.
  eexists. split; [reflexivity|].
  assert (("green", Bounds (35, 50, 50)%Z (85, 255, 255)%Z) ∈ HSV_RANGES)
    as Hgreen by (unfold HSV_RANGES; rewrite !elem_of_cons; by left).
  split.
  - apply (dull_pixels_in_no_mask odd_pixels _ _ 0 0 60 20 200 Hgreen);
      [reflexivity..|lia].
  - apply (dull_pixels_in_no_mask odd_pixels _ _ 0 1 88 200 200 Hgreen);
      [reflexivity..|lia].
Defined.

(** ** The endpoint *)

Lemma declared_image_iff file :
  declared_image file ↔
  falsy (content_type file) || negb (startswith (content_type file) "image/")
  = false.
Proof.
  unfold declared_image, falsy, startswith.
  destruct (content_type file) as [ct|]; simpl.
  - rewrite orb_false_iff, negb_false_iff. split.
    + intros (ct' & [= <-] & Hp). split; [|done].
      case_decide as Hct; [|done]. by rewrite Hct in Hp.
    + intros [_ Hp]. by exists ct.
  - split; [by intros (? & ? & _)|done].
Qed.

Lemma assemble_recognised bricks :
  Forall valid_color bricks → bricks ≠ [] →
  bricks_to_workflow bricks =
    if decide (count_color "green" bricks = 0%nat) then raise MissingStart
    else if decide (1 < count_color "green" bricks)%nat then
      raise (DuplicateStart (count_color "green" bricks))
    else if decide (count_color "red" bricks = 0%nat) then raise MissingEnd
    else if decide (1 < count_color "red" bricks)%nat then
      raise (DuplicateEnd (count_color "red" bricks))
    else inr (graph_of bricks).
Proof.
  intros Hvalid Hne. rewrite bricks_to_workflow_spec.
  rewrite (filter_all valid_color bricks Hvalid). by rewrite decide_False.
Qed.

Section EndpointProperties.
Context `{Cv2}.
Context (Image_open : list Byte.byte → string + Image).
Context (str_raised : exn → string).

Lemma analyze_image_declared file :
  declared_image file →
  analyze_image Image_open str_raised file =
    match Image_open (contents file) with
    | inl text => inl (mkHTTPException 500 (processing_detail text))
    | inr image =>
      match detect_bricks_from_image image with
      | inr [] => inl (mkHTTPException 400 no_bricks_detail)
      | inr bricks =>
          if decide (count_color "green" bricks = 0%nat) then
            inl (mkHTTPException 400 missing_start_message)
          else if decide (1 < count_color "green" bricks)%nat then
            inl (mkHTTPException 400
                   (duplicate_start_message (count_color "green" bricks)))
          else if decide (count_color "red" bricks = 0%nat) then
            inl (mkHTTPException 400 missing_end_message)
          else if decide (1 < count_color "red" bricks)%nat then
            inl (mkHTTPException 400
                   (duplicate_end_message (count_color "red" bricks)))
          else inr (graph_of bricks)
      | inl e => inl (mkHTTPException 500 (processing_detail (str str_raised e)))
      end
    end.
Proof.
  intros Hfile%declared_image_iff. unfold analyze_image. rewrite Hfile.
  destruct (Image_open (contents file)) as [text|image]; [done|].
  destruct (detect_bricks_from_image image) as [e|bricks] eqn:Hdetect; [done|].
  destruct bricks as [|b bricks]; [done|].
  rewrite assemble_recognised by (done || by eapply detected_valid).
  by repeat case_decide.
Qed.

Lemma analyze_image_not_declared file :
  ¬ declared_image file →
  analyze_image Image_open str_raised file
  = inl (mkHTTPException 400 not_an_image_detail).
Proof.
  rewrite declared_image_iff. unfold analyze_image.
  by destruct (falsy _ || negb _).
Qed.
End EndpointProperties.

Section EndpointOutcomes.
Context `{Cv2}.
Context (Image_open : list Byte.byte → string + Image).
Context (str_raised : exn → string).

Lemma declared_image_cases file : declared_image file ∨ ¬ declared_image file.
Proof.
  rewrite declared_image_iff. destruct (falsy _ || negb _); auto.
Qed.

Lemma analyze_image_failure_cases file e :
  analyze_image Image_open str_raised file = inl e →
  (¬ declared_image file ∧ e = mkHTTPException 400 not_an_image_detail)
  ∨ (declared_image file ∧ ∃ text,
       Image_open (contents file) = inl text
       ∧ e = mkHTTPException 500 (processing_detail text))
  ∨ (declared_image file ∧ ∃ image raised,
       Image_open (contents file) = inr image
       ∧ detect_bricks_from_image image = inl raised
       ∧ e = mkHTTPException 500 (processing_detail (str str_raised raised)))
  ∨ (declared_image file ∧ ∃ image bricks,
       Image_open (contents file) = inr image
       ∧ detect_bricks_from_image image = inr bricks
       ∧ (bricks = [] ∧ e = mkHTTPException 400 no_bricks_detail
          ∨ bricks ≠ [] ∧ count_color "green" bricks = 0%nat
            ∧ e = mkHTTPException 400 missing_start_message
          ∨ (1 < count_color "green" bricks)%nat
            ∧ e = mkHTTPException 400
                    (duplicate_start_message (count_color "green" bricks))
          ∨ count_color "green" bricks = 1%nat
            ∧ count_color "red" bricks = 0%nat
            ∧ e = mkHTTPException 400 missing_end_message
          ∨ count_color "green" bricks = 1%nat
            ∧ (1 < count_color "red" bricks)%nat
            ∧ e = mkHTTPException 400
                    (duplicate_end_message (count_color "red" bricks)))).
Proof.
  destruct (declared_image_cases file) as [Hfile|Hfile].
  - rewrite analyze_image_declared by done.
    destruct (Image_open (contents file)) as [text|image] eqn:Hopen.
    { intros [= <-]. right. left. eauto. }
    destruct (detect_bricks_from_image image) as [raised|bricks] eqn:Hdetect.
    { intros [= <-]. right. right. left. eauto 6. }
    intros He. do 3 right. split; [done|]. exists image, bricks.
    split; [done|]. split; [done|].
    destruct bricks as [|b bricks]; [injection He as <-; by left|].
    right. repeat case_decide; try discriminate He; injection He as <-.
    + left. done.
    + right. left. done.
    + right. right. left. split_and!; [lia|done..].
    + right. right. right. split_and!; [lia|done..].
  - rewrite analyze_image_not_declared by done. intros [= <-]. by left.
Qed.

(** X11. The failures of [analyze_image]. A file that is not declared as an
    image is answered 400, File must be an image. Bytes that do not open
    as an image are answered 500 with the text of the exception, and so is
    an image on which the detector raises. An image in which no brick is
    detected is answered 400, No bricks detected, and otherwise the failure
    of [bricks_to_workflow] is passed on as a 400 with its message. There
    is no other failure: the detected bricks are never all of an
    unrecognised colour. *)
Theorem endpoint_failures file e :
  analyze_image Image_open str_raised file = inl e →
  (¬ declared_image file ∧ e = mkHTTPException 400 not_an_image_detail)
  ∨ (declared_image file ∧ ∃ text,
       Image_open (contents file) = inl text
       ∧ e = mkHTTPException 500 (processing_detail text))
  ∨ (declared_image file ∧ ∃ image raised,
       Image_open (contents file) = inr image
       ∧ detect_bricks_from_image image = inl raised
       ∧ e = mkHTTPException 500 (processing_detail (str str_raised raised)))
  ∨ (declared_image file ∧ ∃ image bricks,
       Image_open (contents file) = inr image
       ∧ detect_bricks_from_image image = inr bricks
       ∧ (bricks = [] ∧ e = mkHTTPException 400 no_bricks_detail
          ∨ bricks ≠ [] ∧ count_color "green" bricks = 0%nat
            ∧ e = mkHTTPException 400 missing_start_message
          ∨ (1 < count_color "green" bricks)%nat
            ∧ e = mkHTTPException 400
                    (duplicate_start_message (count_color "green" bricks))
          ∨ count_color "green" bricks = 1%nat
            ∧ count_color "red" bricks = 0%nat
            ∧ e = mkHTTPException 400 missing_end_message
          ∨ count_color "green" bricks = 1%nat
            ∧ (1 < count_color "red" bricks)%nat
            ∧ e = mkHTTPException 400
                    (duplicate_end_message (count_color "red" bricks)))).
Proof. apply analyze_image_failure_cases. Qed.

(** X12. A workflow that [analyze_image] returns comes from a file declared
    as an image whose bytes open, with exactly one green and one red brick
    detected. Every detected brick is a node of it: the nodes are named
    b1 to bn, n being the number of detected bricks, and the edges are a
    simple path through them. *)
Theorem endpoint_workflow file g :
  analyze_image Image_open str_raised file = inr g →
  declared_image file
  ∧ ∃ image bricks,
      Image_open (contents file) = inr image
      ∧ detect_bricks_from_image image = inr bricks
      ∧ bricks_to_workflow bricks = inr g
      ∧ count_color "green" bricks = 1%nat ∧ count_color "red" bricks = 1%nat
      ∧ node_id <$> nodes g
        ≡ₚ (λ k, "b" +:+ pretty k) <$> seq 1 (length bricks)
      ∧ (∀ a b b', edge g a b → edge g a b' → b = b')
      ∧ (∀ a a' b, edge g a b → edge g a' b → a = a')
      ∧ (∀ a, ¬ tc (edge g) a a).
Proof.
  destruct (declared_image_cases file) as [Hfile|Hfile];
    [|by rewrite analyze_image_not_declared].
  rewrite analyze_image_declared by done.
  destruct (Image_open (contents file)) as [text|image] eqn:Hopen; [done|].
  destruct (detect_bricks_from_image image) as [e|bricks] eqn:Hdetect; [done|].
  intros Hg. split; [done|]. exists image, bricks.
  pose proof (detected_valid _ _ Hdetect) as Hvalid.
  pose proof (filter_all valid_color _ Hvalid) as Hall.
  destruct (detect_ids _ _ Hdetect) as [Hids Hnd].
  destruct bricks as [|b0 bricks0] eqn:Hbricks; [done|]. rewrite <-Hbricks in *.
  assert (bricks ≠ []) as Hne by (by rewrite Hbricks).
  repeat case_decide; try discriminate Hg. injection Hg as <-.
  assert (count_color "green" bricks = 1%nat) as Hs by lia.
  assert (count_color "red" bricks = 1%nat) as He by lia.
  split_and!; try done.
  - apply bricks_to_workflow_inr. rewrite Hall. done.
  - unfold graph_of. cbn [nodes]. rewrite <-list_fmap_compose.
    rewrite (sorted_Permutation brick_x), Hall. by rewrite <-Hids.
  - apply graph_of_simple_path. by rewrite Hall.
  - apply graph_of_simple_path. by rewrite Hall.
  - apply graph_of_simple_path. by rewrite Hall.
Qed.

(** X13. [analyze_image] answers 400, File must be an image, exactly for the
    files that are not declared as an image: no content type, an empty one,
    or one that does not start with [image/]. The bytes of such a file are
    not opened. *)
Theorem rejected_iff_not_declared file :
  analyze_image Image_open str_raised file
  = inl (mkHTTPException 400 not_an_image_detail)
  ↔ ¬ declared_image file.
Proof.
  split; [|apply analyze_image_not_declared].
  intros Hrun Hfile.
  destruct (analyze_image_failure_cases _ _ Hrun)
    as [[Hno _]|[(_ & text & _ & [=])|[(_ & image & raised & _ & _ & [=])
       |(_ & image & bricks & _ & _ & Hcases)]]];
    [done|].
  destruct Hcases as [[_ [=]]|[(_ & _ & [=])|[[_ Heq]|[(_ & _ & [=])|(_ & _ & Heq)]]]];
    discriminate Heq.
Qed.

(** X14. Every failure of [analyze_image] is a 400 or a 500, and it is a
    500 exactly when the file is declared as an image and either its bytes
    do not open as one or the detector raises on the image they open as:
    [bricks_to_workflow] never causes a 500. *)
Theorem internal_error_from_open_or_detector file e :
  analyze_image Image_open str_raised file = inl e →
  (status_code e = 400%nat ∨ status_code e = 500%nat)
  ∧ (status_code e = 500%nat ↔
     declared_image file
     ∧ ((∃ text, Image_open (contents file) = inl text)
        ∨ ∃ image raised,
            Image_open (contents file) = inr image
            ∧ detect_bricks_from_image image = inl raised)).
Proof.
  intros Hrun.
  destruct (analyze_image_failure_cases _ _ Hrun)
    as [[Hno ->]|[(Hfile & text & Hopen & ->)
       |[(Hfile & image & raised & Hopen & Hdetect & ->)
       |(Hfile & image & bricks & Hopen & Hdetect & Hcases)]]].
  - split; [by left|]. split; [done|]. by intros [? _].
  - split; [by right|]. split; [|done]. intros _. split; [done|].
    left. by exists text.
  - split; [by right|]. split; [|done]. intros _. split; [done|].
    right. by exists image, raised.
  - assert (status_code e = 400%nat) as ->.
    { destruct Hcases as [[_ ->]|[(_ & _ & ->)|[[_ ->]|[(_ & _ & ->)|(_ & _ & ->)]]]];
        done. }
    split; [by left|]. split; [done|].
    intros (_ & [(text & Htext)|(image' & raised & Hopen' & Hdetect')]).
    + rewrite Hopen in Htext. discriminate Htext.
    + rewrite Hopen in Hopen'. injection Hopen' as <-.
      rewrite Hdetect in Hdetect'. discriminate Hdetect'.
Qed.
End EndpointOutcomes.

Lemma endpoint_failures_witness :
  analyze_image (H:=Toy.cv2) toy_open toy_str grey_alpha_upload
  = inl (mkHTTPException 500
           (processing_detail "Invalid number of channels in input image"))
  ∧ declared_image grey_alpha_upload.
Proof.
  assert (analyze_image (H:=Toy.cv2) toy_open toy_str grey_alpha_upload
    = inl (mkHTTPException 500
             (processing_detail "Invalid number of channels in input image")))
    as Hrun by (vm_compute; reflexivity).
  split; [exact Hrun|].
  destruct (endpoint_failures (H:=Toy.cv2) toy_open toy_str _ _ Hrun)
    as [[_ [=]]|[[Hfile _]|[[Hfile _]|[Hfile _]]]]; exact Hfile.
Defined.

Lemma endpoint_workflow_witness :
  ∃ g, analyze_image (H:=Toy.cv2) toy_open toy_str png_upload = inr g
    ∧ node_id <$> nodes g ≡ₚ ["b1"; "b2"; "b3"].
Proof.
  eexists. split; [vm_compute; reflexivity|].
  destruct (endpoint_workflow (H:=Toy.cv2) toy_open toy_str png_upload _
    ltac:(vm_compute; reflexivity))
    as (_ & image & bricks & Hopen & Hdetect & _ & _ & _ & Hids & _).
  vm_compute in Hopen. injection Hopen as <-.
  vm_compute in Hdetect. injection Hdetect as <-.
  exact Hids.
Defined.

Lemma internal_error_from_open_or_detector_witness :
  declared_image grey_alpha_upload
  ∧ ((∃ text, toy_open (contents grey_alpha_upload) = inl text)
     ∨ ∃ image raised,
         toy_open (contents grey_alpha_upload) = inr image
         ∧ @detect_bricks_from_image Toy.cv2 image = inl raised).
Proof.
  refine (proj1 (proj2 (internal_error_from_open_or_detector (H:=Toy.cv2)
    toy_open toy_str grey_alpha_upload
    (mkHTTPException 500
       (processing_detail "Invalid number of channels in input image")) _))
    eq_refl).
  vm_compute. reflexivity.
Defined.
